(** * websocket-event-listener: the event tracker of [src/index.js]

    A shallow embedding of the log normaliser ([parseEventLog],
    [parseEventLogs]), the historical fetcher ([fetchLogs]), the live
    subscription ([subscribe]) and the orchestrator ([EventTracker]),
    followed by the properties of the design document that hold of them.

    JavaScript objects used as dictionaries are finite maps over their own
    properties; numbers are the integers the program handles (block
    numbers, positions, counts), with what a coercion of a string can add
    to them; strings are sequences of code units below 256, that is of
    Latin-1 characters, with the case conversion and the white space
    JavaScript gives these.  The RPC transport and the ABI decoding engine
    are collaborators: a decoder is a record of its methods, and the
    transport is the script of its replies. *)

From Stdlib Require Import ZArith Ascii String List Lia.
From Stdlib Require Import DecimalString DecimalZ DecimalPos DecimalN.
From stdpp Require Import gmap strings list fin_maps sorting.

Local Open Scope Z_scope.

(** ** JavaScript strings *)

Module Js.

(** [String.prototype.toLowerCase] on one code unit below 256: the
    capitals of ASCII and those of Latin-1 ([U+00C0] to [U+00DE], the
    multiplication sign [U+00D7] apart) move up by 32, every other unit
    stays. *)
Definition lower_char (c : ascii) : ascii :=
  let n := N_of_ascii c in
  if (((65 <=? n) && (n <=? 90))
      || ((192 <=? n) && (n <=? 222) && negb (n =? 215)))%N
  then ascii_of_N (n + 32) else c.

Fixpoint toLowerCase (s : string) : string :=
  match s with
  | EmptyString => EmptyString
  | String c s' => String (lower_char c) (toLowerCase s')
  end.

(** [_.startsWith(s, target)]. *)
Fixpoint startsWith (s target : string) {struct target} : bool :=
  match target with
  | EmptyString => true
  | String a target' =>
      match s with
      | EmptyString => false
      | String b s' => Ascii.eqb a b && startsWith s' target'
      end
  end.

(** [Array.prototype.join] on an array of strings. *)
Fixpoint join (sep : string) (l : list string) : string :=
  match l with
  | [] => ""
  | [x] => x
  | x :: rest => x +:+ sep +:+ join sep rest
  end.

(** Truthiness of a string: only the empty string is falsy. *)
Definition truthy_string (s : string) : bool :=
  match s with EmptyString => false | _ => true end.

(** Decimal rendering of an integer, as [Number.prototype.toString] gives
    for a safe integer and as the big-number [toString] gives always. *)
Definition decimal (n : Z) : string := NilZero.string_of_int (Z.to_int n).

(** Characters of a decimal numeral. *)
Definition is_digit (c : ascii) : bool :=
  let n := N_of_ascii c in ((48 <=? n) && (n <=? 57))%N.

Fixpoint all_digits (s : string) : bool :=
  match s with
  | EmptyString => true
  | String c s' => is_digit c && all_digits s'
  end.

(** *** Numbers

    A number that is an integer is that integer, without a bound.  A
    number that is not an integer is kept as the integer just below it:
    the program reads such a number through [_.range] only, which rounds
    it up.  [NaN] and the two infinities stand for themselves. *)
Inductive number :=
  | NaN
  | Int (n : Z)
  | NonInt (below : Z)
  | Infinity (negative : bool).

(** White space and line ends among the code units below 256; the
    no-break space is one. *)
Definition is_space (c : ascii) : bool :=
  let n := N_of_ascii c in
  ((n =? 32) || ((9 <=? n) && (n <=? 13)) || (n =? 160))%N.

Fixpoint trimStart (s : string) : string :=
  match s with
  | String c s' => if is_space c then trimStart s' else s
  | EmptyString => EmptyString
  end.

Fixpoint trimEnd (s : string) : string :=
  match s with
  | EmptyString => EmptyString
  | String c s' =>
      match trimEnd s' with
      | EmptyString => if is_space c then EmptyString else String c EmptyString
      | t => String c t
      end
  end.

Definition trim (s : string) : string := trimEnd (trimStart s).

Fixpoint no_spaces (s : string) : bool :=
  match s with
  | EmptyString => true
  | String c s' => negb (is_space c) && no_spaces s'
  end.

(** Value of one digit character, for radices up to sixteen. *)
Definition digit_value (c : ascii) : option Z :=
  let n := Z.of_N (N_of_ascii c) in
  if (48 <=? n) && (n <=? 57) then Some (n - 48)
  else if (97 <=? n) && (n <=? 102) then Some (n - 87)
  else if (65 <=? n) && (n <=? 70) then Some (n - 55)
  else None.

(** Digits of [s] in the given radix, most significant first, added to
    [acc]; [None] as soon as a character is not a digit of the radix. *)
Fixpoint digits_from (radix : Z) (s : string) (acc : Z) : option Z :=
  match s with
  | EmptyString => Some acc
  | String c s' =>
      match digit_value c with
      | Some d => if d <? radix then digits_from radix s' (acc * radix + d) else None
      | None => None
      end
  end.

Definition digits (radix : Z) (s : string) : number :=
  match s with
  | EmptyString => NaN
  | _ => match digits_from radix s 0 with Some n => Int n | None => NaN end
  end.

(** The radix announced by a [0x], [0o] or [0b] prefix (either case),
    with the digits that follow it. *)
Definition radix_prefix (t : string) : option (Z * string) :=
  match t with
  | String z (String x r) =>
      if Ascii.eqb z "0" then
        if Ascii.eqb (lower_char x) "x" then Some (16, r)
        else if Ascii.eqb (lower_char x) "o" then Some (8, r)
        else if Ascii.eqb (lower_char x) "b" then Some (2, r)
        else None
      else None
  | _ => None
  end.

Definition negate (x : number) : number :=
  match x with
  | NaN => NaN
  | Int n => Int (- n)
  | NonInt below => NonInt (- below - 1)
  | Infinity negative => Infinity (negb negative)
  end.

(** The decimal digits at the head of [s], and what follows them. *)
Fixpoint span_digits (s : string) : string * string :=
  match s with
  | String c s' =>
      if is_digit c then let '(d, r) := span_digits s' in (String c d, r)
      else (EmptyString, s)
  | EmptyString => (EmptyString, EmptyString)
  end.

(** The value of a string of decimal digits. *)
Definition digits_value (d : string) : Z :=
  match digits_from 10 d 0 with Some n => n | None => 0 end.

(** The exponent part of a decimal literal, when there is one: [e] or
    [E], a sign if any, and digits to the end. *)
Definition exponent (s : string) : option Z :=
  match s with
  | EmptyString => Some 0
  | String c r =>
      if Ascii.eqb (lower_char c) "e" then
        let '(negative, d) :=
          match r with
          | String sign r' =>
              if Ascii.eqb sign "-" then (true, r')
              else if Ascii.eqb sign "+" then (false, r')
              else (false, r)
          | EmptyString => (false, r)
          end in
        match d with
        | EmptyString => None
        | _ =>
            if all_digits d
            then Some (if negative : bool then - digits_value d else digits_value d)
            else None
        end
      else None
  end.

(** The double nearest to [p / q], for [p] and [q] positive: its
    mantissa [m] and exponent [e], the double being [m * 2 ^ e].  The
    mantissa has 53 bits, fewer below the normal range, where the exponent
    stays at [-1074]; a tie goes to the even mantissa. *)
Definition double_of (p q : Z) : Z * Z :=
  let l := Z.log2 p - Z.log2 q in
  let k := if q * 2 ^ Z.max l 0 <=? p * 2 ^ Z.max (- l) 0 then l else l - 1 in
  let e := Z.max (k - 52) (-1074) in
  let num := p * 2 ^ Z.max (- e) 0 in
  let den := q * 2 ^ Z.max e 0 in
  let m := num / den in
  let r := num mod den in
  (if 2 * r <? den then m
   else if den <? 2 * r then m + 1
   else if Z.even m then m else m + 1, e).

Definition nearest_double (p q : Z) : number :=
  let '(m, e) := double_of p q in
  if 0 <=? e then Int (m * 2 ^ e)
  else
    let d := 2 ^ (- e) in
    if m mod d =? 0 then Int (m / d) else NonInt (m / d).

(** The number written [mantissa * 10 ^ exponent], the mantissa not
    being negative: an integer is read exactly, anything else is rounded
    to the nearest double. *)
Definition of_decimal (mantissa exponent : Z) : number :=
  if 0 <=? exponent then Int (mantissa * 10 ^ exponent)
  else
    let q := 10 ^ (- exponent) in
    if mantissa mod q =? 0 then Int (mantissa / q)
    else nearest_double mantissa q.

(** A decimal literal without its sign: [Infinity], or digits with a
    fraction and an exponent if any, at least one digit before the
    exponent. *)
Definition unsigned_decimal (u : string) : number :=
  if String.eqb u "Infinity" then Infinity false
  else
    let '(int_part, r) := span_digits u in
    match r with
    | String "." r' =>
        let '(fraction, r'') := span_digits r' in
        match int_part, fraction with
        | EmptyString, EmptyString => NaN
        | _, _ =>
            match exponent r'' with
            | Some e =>
                of_decimal (digits_value (int_part +:+ fraction))
                  (e - Z.of_nat (String.length fraction))
            | None => NaN
            end
        end
    | _ =>
        match int_part with
        | EmptyString => NaN
        | _ =>
            match exponent r with
            | Some e => of_decimal (digits_value int_part) e
            | None => NaN
            end
        end
    end.

(** [Number(s)]: white space is trimmed, the empty string is [0], a
    radix prefix takes no sign, and otherwise an optional sign precedes a
    decimal literal; anything else is [NaN]. *)
Definition Number (s : string) : number :=
  match trim s with
  | EmptyString => Int 0
  | String c r as t =>
      match radix_prefix t with
      | Some (radix, r') => digits radix r'
      | None =>
          if Ascii.eqb c "-" then negate (unsigned_decimal r)
          else if Ascii.eqb c "+" then unsigned_decimal r
          else unsigned_decimal t
      end
  end.

(** [Number(undefined)] is [NaN]. *)
Definition Number_opt (v : option string) : number :=
  match v with Some s => Number s | None => NaN end.

(** [MAX_INTEGER] of lodash, the largest double. *)
Definition MAX_INTEGER : Z := 2 ^ 1024 - 2 ^ 971.

(** [toFinite] of lodash. *)
Definition toFinite (value : number) : number :=
  match value with
  | NaN => Int 0
  | Infinity negative => Int (if negative then - MAX_INTEGER else MAX_INTEGER)
  | _ => value
  end.

(** [_.range(end)]: from [0] upwards for a positive end and downwards
    for a negative one, as many elements as the end rounded away from
    zero; the empty array for [0] and for [NaN].  The list has that many
    elements whatever the end; the engine builds no array of [2 ^ 32]
    elements or more, a number the count of an event's parameters does not
    reach. *)
Definition range (e : number) : list Z :=
  match toFinite e with
  | Int n =>
      if 0 <=? n then map Z.of_nat (seq 0 (Z.to_nat n))
      else map (fun i => - Z.of_nat i) (seq 0 (Z.to_nat (- n)))
  | NonInt below =>
      if 0 <=? below then map Z.of_nat (seq 0 (Z.to_nat (below + 1)))
      else map (fun i => - Z.of_nat i) (seq 0 (Z.to_nat (- below)))
  | _ => []
  end.

(** The names every plain object answers to without having them as its
    own: the properties of [Object.prototype].  Each holds a function,
    [__proto__] the prototype itself: a truthy value in every case, and
    one without [inputs]. *)
Definition Object_prototype : list string :=
  ["constructor"; "__defineGetter__"; "__defineSetter__"; "hasOwnProperty";
   "__lookupGetter__"; "__lookupSetter__"; "isPrototypeOf";
   "propertyIsEnumerable"; "toString"; "valueOf"; "__proto__";
   "toLocaleString"].

End Js.

(** ** Data model *)

(** An exception travelling up the JavaScript stack: an [Error] with its
    message, or a [TypeError] of the engine, worded as the engine words
    it. *)
Inductive JsError :=
  | Error (message : string)
  | TypeError.

Inductive result (A : Type) :=
  | Ok (a : A)
  | Throw (e : JsError).
Arguments Ok {A} a.
Arguments Throw {A} e.

Definition bind {A B} (r : result A) (k : A -> result B) : result B :=
  match r with Ok a => k a | Throw e => Throw e end.

Notation "'do' x <- r ; k" := (bind r (fun x => k))
  (at level 10, x name, r at level 100, k at level 200).

(** A value produced by the ABI decoder for one event parameter.  Every
    such value has a [toString]: addresses, byte strings and text are
    strings, short integers are numbers, the others big numbers, arrays
    hold decoded values, and an indexed dynamic parameter is an object
    with the default rendering. *)
#[warnings="-register-all"]
Inductive DecodedValue :=
  | VString (s : string)
  | VNumber (n : Z)
  | VBigNumber (n : Z)
  | VBool (b : bool)
  | VArray (l : list DecodedValue)
  | VObject.

(** [v.toString()]. *)
Fixpoint toString (v : DecodedValue) : string :=
  match v with
  | VString s => s
  | VNumber n => Js.decimal n
  | VBigNumber n => Js.decimal n
  | VBool b => if b then "true" else "false"
  | VArray l => Js.join "," (map toString l)
  | VObject => "[object Object]"
  end.

(** A log as the transport hands it over.  The three positions are the
    integers that [BigNumber.from(x).toNumber()] returns for them. *)
Record RawLog := {
  address : string;
  topics : list string;
  data : string;
  blockNumber : Z;
  transactionHash : string;
  removed : bool;
  transactionIndex : Z;
  logIndex : Z;
}.

(** What [parseLog] returns for a log it recognises. *)
Record ParsedLog := {
  name : string;
  signature : string;
  topic : string;
  values : gmap string DecodedValue;
}.

(** The three ways a call of [parseLog] can end. *)
Inductive ParseOutcome :=
  | ParseThrows (e : JsError)
  | ParseNothing
  | Parsed (p : ParsedLog).

(** The record [parseEventLog] returns. *)
Record EventLog := {
  log_address : string;
  log_topics : list string;
  log_data : string;
  log_blockNumber : Z;
  log_transactionIndex : Z;
  log_logIndex : Z;
  log_transactionHash : string;
  log_removed : bool;
  log_name : string;
  log_signature : string;
  log_topic : string;
  log_values : gmap string string;
}.

(** One position of a topic filter: any value, one hash, or one of
    several hashes. *)
Inductive TopicFilter :=
  | TopicAny
  | TopicIs (hash : string)
  | TopicIn (hashes : list string).

(** A value a caller may put in an event descriptor's [params]. *)
Inductive ParamValue :=
  | PUndefined
  | PNull
  | PBool (b : bool)
  | PNumber (n : Z)
  | PString (s : string)
  | PBigNumber (n : Z).

(** A declared event of an ABI, as listed in a decoder's [events]. *)
Record EventDescription := {
  event_name : string;
  event_inputs : list string;
}.

(** An instance of [ethers.utils.Interface], seen through the members the
    program uses.  [events] is an object whose property order matters, so
    it is kept as the list of its entries; a [null] in the array given to
    [encodeFilterTopics] is [None]. *)
Record Interface := {
  events : list (string * EventDescription);
  parseLog : RawLog -> ParseOutcome;
  encodeFilterTopics : string -> list (option ParamValue) -> result (list TopicFilter);
}.

(** ** The log normaliser *)

(** The callback of [_.mapValues] in [parseEventLog]. *)
Definition stringify (v : DecodedValue) : string :=
  let stringVal := toString v in
  let stringVal := if Js.truthy_string stringVal then stringVal else "" in
  if Js.startsWith stringVal "0x" then Js.toLowerCase stringVal else stringVal.

(** [_.range(Number(parsedLogValues.length)).map(p => p.toString())]. *)
Definition argumentRange (parsedLogValues : gmap string string) : list string :=
  map Js.decimal (Js.range (Js.Number_opt (parsedLogValues !! "length"))).

(** The predicate of [_.pickBy] in [parseEventLog]. *)
Definition keep_key (range : list string) (key : string) : Prop :=
  (key ∉ range) ∧ (key ≠ "length").

Global Instance keep_key_dec range key : Decision (keep_key range key).
Proof. unfold keep_key. apply _. Defined.

Definition formatValues (vals : gmap string DecodedValue) : gmap string string :=
  let parsedLogValues := stringify <$> vals in
  let range := argumentRange parsedLogValues in
  filter (fun kv => keep_key range kv.1) parsedLogValues.

Definition parseEventLog (log : RawLog) (abiInterface : Interface) : option EventLog :=
  match parseLog abiInterface log with
  | ParseThrows _ => None
  | ParseNothing => None
  | Parsed parsedLog =>
      Some {|
        log_address := Js.toLowerCase (address log);
        log_topics := topics log;
        log_data := data log;
        log_blockNumber := blockNumber log;
        log_transactionIndex := transactionIndex log;
        log_logIndex := logIndex log;
        log_transactionHash := transactionHash log;
        log_removed := removed log;
        log_name := name parsedLog;
        log_signature := signature parsedLog;
        log_topic := topic parsedLog;
        log_values := formatValues (values parsedLog);
      |}
  end.

(** ** Hex strings of the [ethers] utilities *)

Module Ethers.

(** [HexCharacters[d]]. *)
Definition hex_char (d : Z) : ascii :=
  if d <? 10 then ascii_of_N (Z.to_N (48 + d)) else ascii_of_N (Z.to_N (87 + d)).

(** The loop of [hexlify] on a number:
    [while (value) { hex = HexCharacters[value & 0xf] + hex;
                     value = Math.floor(value / 16) }]. *)
Fixpoint hex_loop (fuel : nat) (value : Z) (hex : string) : string :=
  match fuel with
  | O => hex
  | S fuel' =>
      if value =? 0 then hex
      else hex_loop fuel' (value / 16) (String (hex_char (Z.land value 15)) hex)
  end.

(** [hexlify(value)] for a number: a negative number is refused, and so
    is one from [2 ^ 53 - 1] upwards; the digits are padded to whole
    bytes.  A number that is accepted has at most fourteen hex digits.  The
    wording of the two errors varies with the version of the library; the
    numbers refused and the digits do not. *)
Definition hexlify (value : Z) : result string :=
  if value <? 0 then Throw (Error "cannot hexlify negative value")
  else if 9007199254740991 <=? value then Throw (Error "out-of-range")
  else
    let hex := hex_loop 14 value "" in
    match hex with
    | EmptyString => Ok "0x00"
    | _ =>
        let hex := if Nat.odd (String.length hex) then String "0" hex else hex in
        Ok ("0x" +:+ hex)
    end.

Definition is_hex_digit (c : ascii) : bool :=
  match Js.digit_value c with Some _ => true | None => false end.

Fixpoint all_hex (s : string) : bool :=
  match s with
  | EmptyString => true
  | String c s' => is_hex_digit c && all_hex s'
  end.

(** [isHexString(value)]: [0x] followed by hex digits. *)
Definition isHexString (value : string) : bool :=
  match value with
  | String "0" (String "x" r) => all_hex r
  | _ => false
  end.

(** [value.substring(n)]. *)
Fixpoint substring_from (n : nat) (s : string) : string :=
  match n, s with
  | O, _ => s
  | S n', String _ s' => substring_from n' s'
  | S _, EmptyString => EmptyString
  end.

(** The loop of [hexStripZeros]:
    [while (value.length > 3 && value.substring(0, 3) === '0x0')
       value = '0x' + value.substring(3)]. *)
Fixpoint strip_loop (fuel : nat) (value : string) : string :=
  match fuel with
  | O => value
  | S fuel' =>
      if (3 <? String.length value)%nat && Js.startsWith value "0x0"
      then strip_loop fuel' ("0x" +:+ substring_from 3 value)
      else value
  end.

Definition hexStripZeros (value : string) : result string :=
  if isHexString value then Ok (strip_loop (String.length value) value)
  else Throw (Error "invalid hex string").

End Ethers.

(** ** The program *)

(** [_.uniq]: the first occurrence of each element, in order. *)
Fixpoint uniq_from (seen : list string) (l : list string) : list string :=
  match l with
  | [] => []
  | x :: rest =>
      if decide (x ∈ seen) then uniq_from seen rest
      else x :: uniq_from (x :: seen) rest
  end.

Definition uniq (l : list string) : list string := uniq_from [] l.

(** [_.first(key.split('('))]: the part of [key] before its first
    parenthesis. *)
Fixpoint base_name (key : string) : string :=
  match key with
  | EmptyString => EmptyString
  | String c key' => if Ascii.eqb c "(" then EmptyString else String c (base_name key')
  end.

(** The own property [name] of
    [_.mapKeys(events, (val, key) => _.first(key.split('(')))], if it has
    one: entries are assigned in property order, so the last entry whose
    new key is [name] wins. *)
Definition mappedEvents_lookup (events : list (string * EventDescription)) (name : string)
  : option EventDescription :=
  snd <$> List.find (fun kv => String.eqb (base_name (fst kv)) name) (reverse events).

(** What reading a property of a plain object gives: the object's own
    entry, a member inherited from [Object.prototype], or [undefined]. *)
Inductive Property (A : Type) :=
  | Own (a : A)
  | Inherited
  | Undefined.
Arguments Own {A} a.
Arguments Inherited {A}.
Arguments Undefined {A}.

(** [mappedEvents[name]]. *)
Definition mappedEvents_get (events : list (string * EventDescription)) (name : string)
  : Property EventDescription :=
  match mappedEvents_lookup events name with
  | Some abiEvent => Own abiEvent
  | None => if decide (name ∈ Js.Object_prototype) then Inherited else Undefined
  end.

(** Truthiness of a filter value; a big number is an object. *)
Definition truthy (v : ParamValue) : bool :=
  match v with
  | PUndefined | PNull => false
  | PBool b => b
  | PNumber n => negb (n =? 0)
  | PString s => Js.truthy_string s
  | PBigNumber _ => true
  end.

(** Truthiness of an optional number. *)
Definition truthy_number (v : option Z) : bool :=
  match v with Some n => negb (n =? 0) | None => false end.

(** [contractAddress || undefined]. *)
Definition address_or_undefined (contractAddress : option string) : option string :=
  match contractAddress with
  | Some a => if Js.truthy_string a then Some a else None
  | None => None
  end.

(** The [topic] argument of [fetchLogs]: an array, or anything else. *)
Inductive TopicArg :=
  | TopicArray (l : list TopicFilter)
  | TopicSingle (t : TopicFilter).

(** The object sent with [eth_getLogs]. *)
Record LogQuery := {
  query_address : option string;
  query_topics : list TopicFilter;
  query_fromBlock : string;
  query_toBlock : string;
}.

(** The filter of a subscription, after [_.pickBy(..., _.identity)]:
    an absent field was dropped. *)
Record LogFilter := {
  filter_address : option string;
  filter_topics : option (list TopicFilter);
  filter_fromBlock : option Z;
}.

(** How a query reaches the node: [getLogs] goes through the module's
    [web3Provider], [getProviderLogs] through the provider given. *)
Inductive Transport :=
  | Web3GetPastLogs
  | ProviderSend (provider : string).

(** [provider ? getProviderLogs(logParams, provider) : getLogs(logParams)]. *)
Definition transport_of (provider : option string) : Transport :=
  match provider with Some p => ProviderSend p | None => Web3GetPastLogs end.

(** One reply of the node to a log query. *)
Inductive Reply :=
  | ReplyError (e : JsError)
  | ReplyLogs (logs : list RawLog).

(** What [fetchLogs] does that the outside sees. *)
Inductive Effect :=
  | Request (via : Transport) (q : LogQuery)
  | ConsoleLog (message : string) (e : JsError) (q : LogQuery)
  | SetTimeout (ms : Z).

Inductive Promise (A : Type) :=
  | Resolved (a : A)
  | Rejected (e : JsError)
  | Pending.
Arguments Resolved {A} a.
Arguments Rejected {A} e.
Arguments Pending {A}.

(** [`${toBlock}`]. *)
Definition show_block (b : option Z) : string :=
  match b with Some n => Js.decimal n | None => "undefined" end.

(** [`logs not ready for block ${toBlock}, retrying in 1s`]. *)
Definition not_ready_message (toBlock : option Z) : string :=
  "logs not ready for block " +:+ show_block toBlock +:+ ", retrying in 1s".

(** [b ? hexStripZeros(hexlify(b)) : 'latest']. *)
Definition block_tag (b : option Z) : result string :=
  match b with
  | Some n =>
      if negb (n =? 0) then (do h <- Ethers.hexlify n; Ethers.hexStripZeros h)
      else Ok "latest"
  | None => Ok "latest"
  end.

(** [logParams[0]] of [fetchLogs]. *)
Definition logParams (contractAddress : option string) (topic : TopicArg)
    (fromBlock toBlock : option Z) : result LogQuery :=
  let address := address_or_undefined contractAddress in
  let topics := match topic with TopicArray l => l | TopicSingle t => [t] end in
  do from <- block_tag fromBlock;
  do to <- block_tag toBlock;
  Ok {| query_address := address; query_topics := topics;
        query_fromBlock := from; query_toBlock := to |}.

Section Program.

(** The interface description handed to [new Interface(abi)], and that
    constructor. *)
Context {Abi : Type} (newInterface : Abi -> Interface).

(** What a caller-supplied [parser] returns is the caller's business. *)
Context {Custom : Type}.

(** What reaches a [parser] or a [callback]: a sequence of records (an
    element may be [null]), one record (or [null]), or the result of a
    parser. *)
Inductive Delivery :=
  | Sequence (l : list (option EventLog))
  | Single (r : option EventLog)
  | Transformed (c : Custom).

(** [parseEventLogs(logs, abi)], with the module-level [abiInterfaces]
    passed in and out.  The cache is read at the addresses a node sends,
    hex strings, none of which is a name every object inherits. *)
Definition parseEventLogs (abiInterfaces : gmap string Interface)
    (logs : list RawLog) (abi : Abi) : gmap string Interface * list EventLog :=
  match logs with
  | [] => (abiInterfaces, [])
  | firstLog :: _ =>
      let '(abiInterface, abiInterfaces) :=
        match abiInterfaces !! address firstLog with
        | Some abiInterface => (abiInterface, abiInterfaces)
        | None =>
            let abiInterface := newInterface abi in
            (abiInterface, <[address firstLog := abiInterface]> abiInterfaces)
        end in
      (abiInterfaces, omap (fun log => parseEventLog log abiInterface) logs)
  end.

(** The decoder [parseEventLogs] uses for a batch: the one cached under
    the address of the first log, and a new one when there is none. *)
Definition batch_decoder (abiInterfaces : gmap string Interface)
    (logs : list RawLog) (abi : Abi) : Interface :=
  match logs with
  | [] => newInterface abi
  | firstLog :: _ =>
      default (newInterface abi) (abiInterfaces !! address firstLog)
  end.

(** A run of [fetchLogs]: how its promise settles, the cache afterwards,
    and its effects in order. *)
Record FetchRun := {
  outcome : Promise Delivery;
  cache_after : gmap string Interface;
  effects : list Effect;
}.

(** [fetchLogs(contractAddress, abi, topic, fromBlock, toBlock, parser,
    provider)], against the replies the node will give, one per query.
    When the replies run out the promise is still pending. *)
Fixpoint fetchLogs (replies : list Reply) (abiInterfaces : gmap string Interface)
    (contractAddress : option string) (abi : Abi) (topic : TopicArg)
    (fromBlock toBlock : option Z) (parser : option (Delivery -> Delivery))
    (provider : option string) : FetchRun :=
  match logParams contractAddress topic fromBlock toBlock with
  | Throw e =>
      {| outcome := Rejected e; cache_after := abiInterfaces; effects := [] |}
  | Ok q =>
      let via := transport_of provider in
      match replies with
      | [] =>
          {| outcome := Pending; cache_after := abiInterfaces;
             effects := [Request via q] |}
      | ReplyError e :: replies' =>
          let retry := fetchLogs replies' abiInterfaces contractAddress abi topic
                         fromBlock toBlock parser None in
          {| outcome := outcome retry;
             cache_after := cache_after retry;
             effects :=
               Request via q
               :: ConsoleLog (not_ready_message toBlock) e q
               :: SetTimeout 1000
               :: effects retry |}
      | ReplyLogs logs :: _ =>
          let '(abiInterfaces, parsedEventLogs) :=
            parseEventLogs abiInterfaces logs abi in
          let events := Sequence (Some <$> parsedEventLogs) in
          {| outcome := Resolved (match parser with
                                  | Some parser => parser events
                                  | None => events
                                  end);
             cache_after := abiInterfaces;
             effects := [Request via q] |}
      end
  end.

(** What the caller of [fetchLogs] gets from the logs of a successful
    attempt: [parser ? parser(parsedEventLogs) : parsedEventLogs]. *)
Definition delivered (abiInterfaces : gmap string Interface) (logs : list RawLog)
    (abi : Abi) (parser : option (Delivery -> Delivery)) : Delivery :=
  let events := Sequence (Some <$> (parseEventLogs abiInterfaces logs abi).2) in
  match parser with Some parser => parser events | None => events end.

(** What the handler of a subscription does for one notification. *)
Inductive Notice :=
  | ConsoleLogError (e : JsError)
  | Callback (callback : string) (d : Delivery).

(** The handler [subscribe] registers: [(error, log) => ...].  A missing
    [log] makes [parseLog] throw inside [parseEventLog], which returns
    [null]. *)
Definition on_log (abiInterface : Interface) (callback : string)
    (parser : option (Delivery -> Delivery))
    (error : option JsError) (log : option RawLog) : list Notice :=
  let parsed := match log with
                | Some log => parseEventLog log abiInterface
                | None => None
                end in
  match error with Some e => [ConsoleLogError e] | None => [] end ++
  match parser with
  | Some parser => [Callback callback (parser (Single parsed))]
  | None => [Callback callback (Sequence [parsed])]
  end.

(** A subscription to the ['logs'] channel. *)
Record Subscription := {
  sub_channel : string;
  sub_filter : LogFilter;
  sub_handler : option JsError -> option RawLog -> list Notice;
}.

(** [subscribe(contractAddress, abi, topic, fromBlock, callback,
    parser)]. *)
Definition subscribe (contractAddress : option string) (abi : Abi)
    (topic : list TopicFilter) (fromBlock : Z) (callback : string)
    (parser : option (Delivery -> Delivery)) : Subscription :=
  let logParams :=
    {| filter_address := address_or_undefined contractAddress;
       filter_topics := Some topic;
       filter_fromBlock := if truthy_number (Some fromBlock) then Some fromBlock else None |} in
  let abiInterface := newInterface abi in
  {| sub_channel := "logs"; sub_filter := logParams;
     sub_handler := on_log abiInterface callback parser |}.

(** An event descriptor.  Callbacks and hooks are known by name; block
    numbers and counts are numbers. *)
Record EventDescriptor := {
  ev_name : string;
  ev_contract : option string;
  ev_abi : Abi;
  ev_params : option (gmap string ParamValue);
  ev_callback : string;
  ev_parser : option (Delivery -> Delivery);
  ev_backFillBlockCount : option Z;
  ev_fromBlock : option Z;
  ev_onFetchingHistoricalEvents : option string;
  ev_onFetchedHistoricalEvents : option string;
}.

(** The list the error of [getEventTopics] prints:
    [_.uniq(_.map(_.values(events), 'name'))]. *)
Definition possible_events (abiInterface : Interface) : list string :=
  uniq (map (fun kv => event_name (snd kv)) (events abiInterface)).

Definition not_an_event (name : string) (names : list string) : JsError :=
  Error (name +:+ " not an abi event, possible events are " +:+ Js.join ", " names).

(** [paramsArray] of [getEventTopics]; [None] is [null].  The names of
    the inputs are parameter names of the contract, taken not to be among
    those every object inherits: [params[inputName]] is then an own
    property or [undefined]. *)
Definition paramsArray (params : gmap string ParamValue) (inputs : list string)
  : list (option ParamValue) :=
  map (fun inputName =>
         match params !! inputName with
         | None | Some PUndefined => None
         | Some v => Some v
         end) inputs.

(** [getEventTopics({ name, params: paramsInputs, abi })].  A name that
    [mappedEvents] only inherits passes the test [!abiEvent] and has no
    [inputs]: the call of [map] on them raises a [TypeError]. *)
Definition getEventTopics (event : EventDescriptor) : result (list TopicFilter) :=
  let params := filter (fun kv => truthy kv.2 = true) (default ∅ (ev_params event)) in
  let abiInterface := newInterface (ev_abi event) in
  match mappedEvents_get (events abiInterface) (ev_name event) with
  | Undefined => Throw (not_an_event (ev_name event) (possible_events abiInterface))
  | Inherited => Throw TypeError
  | Own abiEvent =>
      encodeFilterTopics abiInterface (ev_name event)
        (paramsArray params (event_inputs abiEvent))
  end.

(** A call of [fetchLogs] made by [fetchHistoricalLogs], with what is to
    be done with its result. *)
Record HistoricalFetch := {
  hist_contract : option string;
  hist_abi : Abi;
  hist_topics : list TopicFilter;
  hist_fromBlock : Z;
  hist_toBlock : Z;
  hist_parser : option (Delivery -> Delivery);
  hist_onFetched : option string;
  hist_callback : string;
}.

(** What [subscribeToEvent] sets in motion, in order. *)
Inductive Action :=
  | CallHook (hook : string)
  | StartFetch (f : HistoricalFetch)
  | OpenSubscription (s : Subscription).

(** [fetchHistoricalLogs(...)], up to the point where [fetchLogs] has
    been called; a hook left out defaults to [_.identity]. *)
Definition fetchHistoricalLogs (contractAddress : option string) (abi : Abi)
    (topics : list TopicFilter) (fromBlock toBlock : Z) (callback : string)
    (onFetchingHistoricalEvents onFetchedHistoricalEvents : option string)
    (parser : option (Delivery -> Delivery)) : list Action :=
  match onFetchingHistoricalEvents with Some h => [CallHook h] | None => [] end ++
  [StartFetch {| hist_contract := contractAddress; hist_abi := abi;
                 hist_topics := topics; hist_fromBlock := fromBlock;
                 hist_toBlock := toBlock; hist_parser := parser;
                 hist_onFetched := onFetchedHistoricalEvents;
                 hist_callback := callback |}].

(** The call of [fetchLogs] a started fetch stands for. *)
Definition run_fetch (replies : list Reply) (abiInterfaces : gmap string Interface)
    (f : HistoricalFetch) : FetchRun :=
  fetchLogs replies abiInterfaces (hist_contract f) (hist_abi f)
    (TopicArray (hist_topics f)) (Some (hist_fromBlock f)) (Some (hist_toBlock f))
    (hist_parser f) None.

(** [fromBlockNumberOverride] of [subscribeToEvent]. *)
Definition fromBlockNumberOverride (event : EventDescriptor) (blockNumber : Z) : option Z :=
  match ev_fromBlock event with
  | Some fromBlock => Some fromBlock
  | None =>
      match ev_backFillBlockCount event with
      | Some backFillBlockCount => Some (blockNumber - backFillBlockCount)
      | None => None
      end
  end.

(** [subscribeToEvent(event, blockNumber)]. *)
Definition subscribeToEvent (event : EventDescriptor) (blockNumber : Z)
  : result (list Action) :=
  let override := fromBlockNumberOverride event blockNumber in
  do topics <- getEventTopics event;
  Ok ((match override with
       | Some start =>
           if truthy_number override
           then fetchHistoricalLogs (ev_contract event) (ev_abi event) topics
                  start blockNumber (ev_callback event)
                  (ev_onFetchingHistoricalEvents event)
                  (ev_onFetchedHistoricalEvents event) (ev_parser event)
           else []
       | None => []
       end)
      ++ [OpenSubscription (subscribe (ev_contract event) (ev_abi event) topics
                              blockNumber (ev_callback event) (ev_parser event))]).

(** The fetches started and the subscriptions opened by a list of
    actions, in order. *)
Definition fetches (actions : list Action) : list HistoricalFetch :=
  omap (fun a => match a with StartFetch f => Some f | _ => None end) actions.

Definition subscriptions (actions : list Action) : list Subscription :=
  omap (fun a => match a with OpenSubscription s => Some s | _ => None end) actions.

(** [trackEvent(event)] on a tracker whose [trackedEvents] is given,
    when the head block has number [latestBlock_number]: the actions
    started, the new [trackedEvents] and the value returned. *)
Definition trackEvent (trackedEvents : list EventDescriptor)
    (latestBlock_number : Z) (event : EventDescriptor)
  : result (list Action * list EventDescriptor * bool) :=
  let latestBlockNumber := latestBlock_number - 1 in
  do actions <- subscribeToEvent event latestBlockNumber;
  Ok (actions, trackedEvents ++ [event], true).

End Program.

(** ** Reading the effects of a fetch *)

(** The effects of attempts that fail with [errors] and of the attempt
    after them: each failure is logged and followed by a wait of one
    second, and only the first attempt may go through a given provider. *)
Fixpoint attempts (via : Transport) (q : LogQuery) (message : string)
    (errors : list JsError) : list Effect :=
  match errors with
  | [] => [Request via q]
  | e :: errors' =>
      Request via q :: ConsoleLog message e q :: SetTimeout 1000
      :: attempts Web3GetPastLogs q message errors'
  end.


(** The queries sent, the transports they went through and the delays
    waited, each in order. *)
Definition queries (l : list Effect) : list LogQuery :=
  omap (fun e => match e with Request _ q => Some q | _ => None end) l.

Definition transports (l : list Effect) : list Transport :=
  omap (fun e => match e with Request via _ => Some via | _ => None end) l.

Definition delays (l : list Effect) : list Z :=
  omap (fun e => match e with SetTimeout ms => Some ms | _ => None end) l.

(** The hex digits of a positive integer below [2 ^ 53 - 1] after [0x], most
    significant first. *)
Definition hex_digits (n : Z) : string := Ethers.hex_loop 14 n "".

(** How a block bound goes into the query when it is a number other
    than zero, and otherwise. *)
Definition encoded_bound (b : option Z) : string :=
  match b with
  | Some n => if n =? 0 then "latest" else "0x" +:+ hex_digits n
  | None => "latest"
  end.

(** A bound the hex encoder accepts: an integer from [0] to
    [2 ^ 53 - 2].  The largest safe integer, [2 ^ 53 - 1], is refused with
    those above it. *)
Definition safe_bound (b : option Z) : Prop :=
  match b with Some n => 0 <= n < 9007199254740991 | None => True end.

(** What [_.pickBy(params, _.identity)] leaves under a key: the value
    when there is one and it is truthy. *)
Definition filter_value (params : gmap string ParamValue) (inputName : string)
  : option ParamValue :=
  match params !! inputName with
  | Some v => if truthy v then Some v else None
  | None => None
  end.

(** ** What the decoder hands to the normaliser *)

(** The keys ["0"], ..., ["n-1"] under which a decoder repeats the
    parameters of an event by position. *)
Definition positional_keys (n : nat) : list string :=
  map Js.decimal (map Z.of_nat (seq 0 n)).

(** The [values] of a decoded event with [n] parameters, those in
    [declared] being the names of the named ones: the named parameters,
    their duplicates by position, and the count under [length]. *)
Definition decoder_shape (declared : list string) (n : nat)
    (vals : gmap string DecodedValue) : Prop :=
  vals !! "length" = Some (VNumber (Z.of_nat n)) ∧
  dom vals = list_to_set declared ∪ list_to_set (positional_keys n) ∪ {["length"]}.

(** How the decoder fills [values] from the declared inputs of an event,
    each with its decoded value: position first, then the name when there
    is one, and the count last. *)
Fixpoint fill_values (index : nat) (inputs : list (string * DecodedValue))
    (result : gmap string DecodedValue) : gmap string DecodedValue :=
  match inputs with
  | [] => result
  | (input_name, v) :: rest =>
      let result := <[Js.decimal (Z.of_nat index) := v]> result in
      let result := if Js.truthy_string input_name
                    then <[input_name := v]> result else result in
      fill_values (S index) rest result
  end.

Definition decoded_values (inputs : list (string * DecodedValue))
  : gmap string DecodedValue :=
  <["length" := VNumber (Z.of_nat (length inputs))]> (fill_values 0 inputs ∅).

(** The names of the inputs that have one. *)
Definition declared_names (inputs : list (string * DecodedValue)) : list string :=
  List.filter Js.truthy_string (map fst inputs).

(** Whether [parseLog] decodes a log. *)
Definition decodes (abiInterface : Interface) (log : RawLog) : bool :=
  match parseLog abiInterface log with Parsed _ => true | _ => false end.

(** The case rule of the normaliser on a rendered value. *)
Definition lowercase_if_hex (s : string) : string :=
  if Js.startsWith s "0x" then Js.toLowerCase s else s.

(** ** Sample decoders and descriptors *)

Module Sample.

Inductive SampleAbi :=
  | Erc20
  | Resizable.

Definition transfer_topic : string := "0xddf252ad".
Definition approval_topic : string := "0x8c5be1e5".
Definition resized_topic : string := "0x5e2a0c4f".

Definition transfer_event : EventDescription :=
  {| event_name := "Transfer"; event_inputs := ["from"; "to"; "amount"] |}.
Definition approval_event : EventDescription :=
  {| event_name := "Approval"; event_inputs := ["owner"; "spender"; "amount"] |}.
Definition resized_event : EventDescription :=
  {| event_name := "Resized"; event_inputs := ["length"] |}.

Definition quantity (s : string) : Z :=
  match Js.Number s with Js.Int n => n | _ => 0 end.

Definition show_param (v : ParamValue) : string :=
  match v with
  | PUndefined => "undefined"
  | PNull => "null"
  | PBool b => if b then "true" else "false"
  | PNumber n | PBigNumber n => Js.decimal n
  | PString s => s
  end.

Definition encode_filter (event_topic : string) (params : list (option ParamValue))
  : result (list TopicFilter) :=
  Ok (TopicIs event_topic
      :: map (fun p => match p with
                       | Some v => TopicIs (show_param v)
                       | None => TopicAny
                       end) params).

(** A token decoder: a transfer carries its two parties in the topics
    and the amount in the data; a transfer with a third indexed topic (a
    collectible) cannot be decoded and makes [parseLog] throw. *)
Definition erc20 : Interface :=
  {| events := [("Transfer", transfer_event);
                ("Transfer(address,address,uint256)", transfer_event);
                ("Approval", approval_event);
                ("Approval(address,address,uint256)", approval_event)];
     parseLog := fun log =>
       match topics log with
       | [t; from; to] =>
           if String.eqb t transfer_topic then
             Parsed {| name := "Transfer";
                       signature := "Transfer(address,address,uint256)";
                       topic := transfer_topic;
                       values := decoded_values
                                   [("from", VString from); ("to", VString to);
                                    ("amount", VBigNumber (quantity (data log)))] |}
           else ParseNothing
       | t :: _ =>
           if String.eqb t transfer_topic
           then ParseThrows (Error "data out-of-bounds")
           else ParseNothing
       | [] => ParseNothing
       end;
     encodeFilterTopics := fun event params =>
       encode_filter (if String.eqb event "Transfer" then transfer_topic
                      else approval_topic) params |}.

(** A decoder for [event Resized(uint256 length)]. *)
Definition resizable : Interface :=
  {| events := [("Resized", resized_event); ("Resized(uint256)", resized_event)];
     parseLog := fun log =>
       match topics log with
       | t :: _ =>
           if String.eqb t resized_topic then
             Parsed {| name := "Resized"; signature := "Resized(uint256)";
                       topic := resized_topic;
                       values := decoded_values
                                   [("length", VBigNumber (quantity (data log)))] |}
           else ParseNothing
       | [] => ParseNothing
       end;
     encodeFilterTopics := fun _ params => encode_filter resized_topic params |}.

Definition newInterface (abi : SampleAbi) : Interface :=
  match abi with Erc20 => erc20 | Resizable => resizable end.

Definition raw (addr : string) (tps : list string) (dat : string) (block : Z) : RawLog :=
  {| address := addr; topics := tps; data := dat; blockNumber := block;
     transactionHash := "0x7A11"; removed := false;
     transactionIndex := 0; logIndex := 0 |}.

(** A transfer of 1000 from [0xDEF] to [0xGHI], logged by [0xABC]. *)
Definition transfer_log : RawLog :=
  raw "0xABC" [transfer_topic; "0xDEF"; "0xGHI"] "1000" 990.

(** A collectible's transfer: same topic, one more indexed parameter. *)
Definition collectible_log : RawLog :=
  raw "0xC0FFEE" [transfer_topic; "0xDEF"; "0xGHI"; "0x07"] "" 991.

(** A log of an event the token ABI does not declare. *)
Definition foreign_log : RawLog :=
  raw "0xABC" ["0x00000000"] "" 992.

Definition resized_log : RawLog :=
  raw "0xA11" [resized_topic] "5" 993.

Definition descriptor (event : string) (params : option (gmap string ParamValue))
    (fromBlock backFillBlockCount : option Z) : @EventDescriptor SampleAbi unit :=
  {| ev_name := event; ev_contract := Some "0xABC"; ev_abi := Erc20;
     ev_params := params; ev_callback := "onTransfer"; ev_parser := None;
     ev_backFillBlockCount := backFillBlockCount; ev_fromBlock := fromBlock;
     ev_onFetchingHistoricalEvents := None;
     ev_onFetchedHistoricalEvents := None |}.

(** [{name: "Transfer", contract: "0xABC", backFillBlockCount: 10}]. *)
Definition transfer_descriptor : @EventDescriptor SampleAbi unit :=
  descriptor "Transfer" None None (Some 10).

(** The same with [fromBlock: 0], to start at the first block. *)
Definition genesis_descriptor : @EventDescriptor SampleAbi unit :=
  descriptor "Transfer" None (Some 0) None.

(** An event the token ABI does not declare. *)
Definition mint_descriptor : @EventDescriptor SampleAbi unit :=
  descriptor "Mint" None None (Some 10).

(** Transfers of nothing: [params: {amount: 0}]. *)
Definition zero_amount_descriptor : @EventDescriptor SampleAbi unit :=
  descriptor "Transfer" (Some {[ "amount" := PNumber 0 ]}) None None.

End Sample.

(** ** The rest of the tracker *)

Section History.

Context {Abi Custom : Type}.

(** The callbacks called among some notices, with what each received. *)
Definition callbacks (l : list (@Notice Custom)) : list (string * @Delivery Custom) :=
  omap (fun n => match n with Callback c d => Some (c, d) | _ => None end) l.

(** What [fetchHistoricalLogs] attaches to the promise of [fetchLogs]:
    [.then(events => { onFetchedHistoricalEvents(events); callback(events) })].
    Nothing is attached for a rejection, and a hook left out is
    [_.identity]. *)
Definition on_fetched (f : @HistoricalFetch Abi Custom)
    (p : Promise (@Delivery Custom)) : list (@Notice Custom) :=
  match p with
  | Resolved events =>
      match hist_onFetched f with
      | Some hook => [Callback hook events]
      | None => []
      end ++ [Callback (hist_callback f) events]
  | Rejected _ | Pending => []
  end.

(** A descriptor with other [params]. *)
Definition with_params (event : @EventDescriptor Abi Custom)
    (params : option (gmap string ParamValue)) : @EventDescriptor Abi Custom :=
  {| ev_name := ev_name event; ev_contract := ev_contract event;
     ev_abi := ev_abi event; ev_params := params;
     ev_callback := ev_callback event; ev_parser := ev_parser event;
     ev_backFillBlockCount := ev_backFillBlockCount event;
     ev_fromBlock := ev_fromBlock event;
     ev_onFetchingHistoricalEvents := ev_onFetchingHistoricalEvents event;
     ev_onFetchedHistoricalEvents := ev_onFetchedHistoricalEvents event |}.

(** The hooks called among some actions, in order. *)
Definition hooks_called (actions : list (@Action Abi Custom)) : list string :=
  omap (fun a => match a with CallHook h => Some h | _ => None end) actions.

End History.

Section TrackerStates.

Context {Abi Custom : Type} (newInterface : Abi -> Interface).

(** The values [this.trackedEvents] takes: the empty array the constructor
    sets, and what a call of [trackEvent] that returns leaves behind.  A
    call that throws leaves the array as it was. *)
Inductive tracked : list (@EventDescriptor Abi Custom) -> Prop :=
  | tracked_new : tracked []
  | tracked_step (trackedEvents trackedEvents' : list EventDescriptor)
      (latestBlock_number : Z) (event : EventDescriptor)
      (actions : list Action) (returned : bool) :
      tracked trackedEvents ->
      trackEvent newInterface trackedEvents latestBlock_number event
        = Ok (actions, trackedEvents', returned) ->
      tracked trackedEvents'.

End TrackerStates.

(** The part of a record that tells which log it came from. *)
Definition log_position (log : RawLog) : string * Z :=
  (transactionHash log, logIndex log).

Definition record_position (r : EventLog) : string * Z :=
  (log_transactionHash r, log_logIndex r).

(** ** More sample decoders *)

Module Overloads.



(** A decoder that turns every log into the same two values and sets no
    [length]. *)
Definition bare : Interface :=
  {| events := [];
     parseLog := fun _ =>
       Parsed {| name := "Seen"; signature := "Seen(address)"; topic := "0x5ee0";
                 values := {[ "0" := VString "0xAB"; "who" := VString "0xAB" ]} |};
     encodeFilterTopics := fun _ params => Sample.encode_filter "0x5ee0" params |}.

Definition descriptor (params : option (gmap string ParamValue))
  : @EventDescriptor unit unit :=
  {| ev_name := "Transfer"; ev_contract := Some "0x777"; ev_abi := tt;
     ev_params := params; ev_callback := "onTransfer"; ev_parser := None;
     ev_backFillBlockCount := None; ev_fromBlock := None;
     ev_onFetchingHistoricalEvents := None;
     ev_onFetchedHistoricalEvents := None |}.

End Overloads.

(** * Properties *)

(** ** Facts about the JavaScript primitives *)

Module JsFacts.
Import Js.

Lemma all_digits_uint (d : Decimal.uint) :
  all_digits (NilEmpty.string_of_uint d) = true.
Proof. induction d; simpl; auto. Qed.

Lemma is_digit_not_space c : is_digit c = true -> is_space c = false.
Proof.
  destruct c as [[] [] [] [] [] [] [] []]; intros H;
    try reflexivity; discriminate H.
Qed.

Lemma trimEnd_no_spaces s : no_spaces s = true -> trimEnd s = s.
Proof.
  induction s as [|c s IH]; simpl; [done|].
  intros [Hc Hs]%andb_true_iff. rewrite (IH Hs).
  destruct s; [|done]. by apply negb_true_iff in Hc as ->.
Qed.

Lemma trim_no_spaces s : no_spaces s = true -> trim s = s.
Proof.
  intros H. unfold trim.
  destruct s as [|c s]; [done|]. pose proof H as H'. simpl in H.
  apply andb_true_iff in H as [Hc Hs]. simpl trimStart.
  apply negb_true_iff in Hc as ->. by apply trimEnd_no_spaces.
Qed.

Lemma all_digits_no_spaces s : all_digits s = true -> no_spaces s = true.
Proof.
  induction s as [|c s IH]; simpl; [done|].
  intros [Hc Hs]%andb_true_iff.
  by rewrite (is_digit_not_space _ Hc), (IH Hs).
Qed.

Lemma trim_digits s : all_digits s = true -> trim s = s.
Proof. intros H. by apply trim_no_spaces, all_digits_no_spaces. Qed.

Lemma trim_minus_digits s :
  all_digits s = true -> s <> "" -> trim (String "-" s) = String "-" s.
Proof.
  intros H Hne. apply trim_no_spaces. simpl.
  by apply all_digits_no_spaces.
Qed.

(** Reading back the digits of a [Decimal.uint], with the accumulator of
    the standard library's own reader on the other side. *)
Lemma digits_from_uint (d : Decimal.uint) (acc : Z) :
  0 <= acc ->
  digits_from 10 (NilEmpty.string_of_uint d) acc =
  Some (match acc with
        | Zpos a => Zpos (Pos.of_uint_acc d a)
        | _ => Z.of_N (Pos.of_uint d)
        end).
Proof.
  revert acc.
  induction d; intros acc Hacc; simpl NilEmpty.string_of_uint;
    [by destruct acc|..];
    cbn [digits_from];
    match goal with
    | |- context [digit_value ?c] =>
        let v := eval vm_compute in (digit_value c) in
        change (digit_value c) with v; cbv iota
    end;
    match goal with
    | |- context [?a <? 10] => change (a <? 10) with true; cbv iota
    end;
    rewrite IHd by lia;
    destruct acc as [|a|a]; try lia; simpl; do 3 f_equal; lia.
Qed.

Lemma string_of_pos_nonempty (p : positive) :
  NilEmpty.string_of_uint (Pos.to_uint p) <> "".
Proof.
  intros E.
  pose proof (digits_from_uint (Pos.to_uint p) 0 (Z.le_refl 0)) as H.
  rewrite E, DecimalPos.Unsigned.of_to in H. discriminate.
Qed.

Lemma digits_pos (p : positive) :
  digits 10 (NilEmpty.string_of_uint (Pos.to_uint p)) = Int (Zpos p).
Proof.
  pose proof (string_of_pos_nonempty p) as Hne.
  pose proof (digits_from_uint (Pos.to_uint p) 0 (Z.le_refl 0)) as H.
  rewrite DecimalPos.Unsigned.of_to in H. unfold digits.
  destruct (NilEmpty.string_of_uint (Pos.to_uint p)); [done|].
  by rewrite H.
Qed.

Lemma nilzero_pos (p : positive) :
  NilZero.string_of_uint (Pos.to_uint p) = NilEmpty.string_of_uint (Pos.to_uint p).
Proof.
  pose proof (string_of_pos_nonempty p) as H.
  by destruct (Pos.to_uint p).
Qed.

Lemma radix_prefix_uint (d : Decimal.uint) :
  radix_prefix (NilEmpty.string_of_uint d) = None.
Proof. destruct d as [|d|d|d|d|d|d|d|d|d|d]; try done; by destruct d. Qed.

Lemma first_digit_no_sign c :
  is_digit c = true ->
  Ascii.eqb c "-" = false /\ Ascii.eqb c "+" = false.
Proof.
  intros H. split; apply Ascii.eqb_neq; intros ->; discriminate H.
Qed.

Lemma span_digits_all (s : string) :
  all_digits s = true -> span_digits s = (s, EmptyString).
Proof.
  induction s as [|c s IH]; [done|]. cbn [all_digits span_digits].
  intros [-> Hs]%andb_true_iff. by rewrite (IH Hs).
Qed.

(** A literal made of digits only is read as its digits. *)
Lemma unsigned_decimal_digits (s : string) (n : Z) :
  all_digits s = true -> digits 10 s = Int n -> unsigned_decimal s = Int n.
Proof.
  intros Hd Hn. unfold unsigned_decimal.
  destruct (String.eqb_spec s "Infinity") as [->|_]; [discriminate Hd|].
  rewrite (span_digits_all _ Hd). unfold digits in Hn.
  destruct s as [|c s]; [done|]. unfold exponent, digits_value, of_decimal.
  destruct (digits_from 10 (String c s) 0) as [m|]; [|done].
  injection Hn as ->. cbn [Z.leb Z.compare Z.pow Z.pow_pos Pos.iter]. f_equal. lia.
Qed.

(** [Number] reads back what [toString] printed. *)
Lemma Number_decimal (n : Z) : Number (decimal n) = Int n.
Proof.
  unfold decimal. destruct n as [|p|p]; [done|..]; simpl Z.to_int;
    simpl NilZero.string_of_int; rewrite nilzero_pos.
  - pose proof (all_digits_uint (Pos.to_uint p)) as Hd.
    pose proof (radix_prefix_uint (Pos.to_uint p)) as Hr.
    pose proof (unsigned_decimal_digits _ _ Hd (digits_pos p)) as Hp.
    unfold Number. rewrite (trim_digits _ Hd).
    destruct (NilEmpty.string_of_uint (Pos.to_uint p)) as [|c s]; [done|].
    rewrite Hr. simpl in Hd. apply andb_true_iff in Hd as [Hc _].
    destruct (first_digit_no_sign c Hc) as [-> ->]. done.
  - pose proof (all_digits_uint (Pos.to_uint p)) as Hd.
    pose proof (unsigned_decimal_digits _ _ Hd (digits_pos p)) as Hp.
    unfold Number.
    rewrite (trim_minus_digits _ Hd (string_of_pos_nonempty p)).
    assert (radix_prefix (String "-" (NilEmpty.string_of_uint (Pos.to_uint p))) = None)
      as -> by (by destruct (NilEmpty.string_of_uint (Pos.to_uint p))).
    change (Ascii.eqb "-" "-") with true. cbv iota. by rewrite Hp.
Qed.

(** A decimal numeral is not empty and never starts with [0x]. *)
Lemma decimal_nonempty (n : Z) : truthy_string (decimal n) = true.
Proof.
  unfold decimal. destruct n as [|p|p]; [done|..]; simpl.
  - rewrite nilzero_pos. pose proof (string_of_pos_nonempty p).
    by destruct (NilEmpty.string_of_uint _).
  - done.
Qed.

Lemma startsWith_0x_radix s :
  startsWith s "0x" = true -> radix_prefix s = Some (16, match s with String _ (String _ r) => r | _ => "" end).
Proof.
  destruct s as [|a [|b r]]; cbn [startsWith radix_prefix]; try done.
  - by rewrite andb_false_r.
  - rewrite andb_true_r. intros [Ha Hb]%andb_true_iff.
    apply Ascii.eqb_eq in Ha as <-. apply Ascii.eqb_eq in Hb as <-. done.
Qed.

Lemma decimal_not_hex (n : Z) : startsWith (decimal n) "0x" = false.
Proof.
  destruct n as [|p|p]; [reflexivity| |reflexivity].
  destruct (startsWith (decimal (Zpos p)) "0x") eqn:E; [|done].
  apply startsWith_0x_radix in E. unfold decimal in E.
  simpl Z.to_int in E. simpl NilZero.string_of_int in E.
  by rewrite nilzero_pos, radix_prefix_uint in E.
Qed.

(** The positional keys [0 .. n-1] as [_.range] and [toString] spell them. *)
Lemma range_nat (n : nat) :
  range (Int (Z.of_nat n)) = map Z.of_nat (seq 0 n).
Proof.
  unfold range. cbn [toFinite]. destruct (Z.leb_spec 0 (Z.of_nat n)); [|lia].
  by rewrite Nat2Z.id.
Qed.

Lemma decimal_inj (a b : Z) : decimal a = decimal b -> a = b.
Proof.
  intros H. apply (f_equal Number) in H.
  rewrite !Number_decimal in H. by injection H.
Qed.

End JsFacts.

(** ** The log normaliser *)

Section Normaliser.

Implicit Types (vals : gmap string DecodedValue) (k : string).

(** The [|| ''] of the [_.mapValues] callback changes nothing: a
    rendering that is falsy is the empty string already. *)
Lemma stringify_lowercase_if_hex (v : DecodedValue) :
  stringify v = lowercase_if_hex (toString v).
Proof. unfold stringify. by destruct (toString v). Qed.

Lemma stringify_number (n : Z) : stringify (VNumber n) = Js.decimal n.
Proof.
  rewrite stringify_lowercase_if_hex. unfold lowercase_if_hex.
  cbn [toString]. by rewrite JsFacts.decimal_not_hex.
Qed.

Lemma stringify_big_number (n : Z) : stringify (VBigNumber n) = Js.decimal n.
Proof.
  rewrite stringify_lowercase_if_hex. unfold lowercase_if_hex.
  cbn [toString]. by rewrite JsFacts.decimal_not_hex.
Qed.

(** What [_.pickBy] keeps of the rendered values. *)
Lemma lookup_formatValues vals k :
  formatValues vals !! k =
  if decide (keep_key (argumentRange (stringify <$> vals)) k)
  then stringify <$> vals !! k else None.
Proof.
  unfold formatValues. case_decide as Hk.
  - destruct (vals !! k) as [v|] eqn:Hv; simpl.
    + apply map_lookup_filter_Some. by rewrite lookup_fmap, Hv.
    + apply map_lookup_filter_None. left. by rewrite lookup_fmap, Hv.
  - apply map_lookup_filter_None. right. intros s _. exact Hk.
Qed.

(** With the count under [length], the keys removed by position are
    exactly the positional ones. *)
Lemma argumentRange_length vals (n : nat) :
  vals !! "length" = Some (VNumber (Z.of_nat n)) ->
  argumentRange (stringify <$> vals) = positional_keys n.
Proof.
  intros H. unfold argumentRange, positional_keys.
  rewrite lookup_fmap, H. simpl.
  by rewrite stringify_number, JsFacts.Number_decimal, JsFacts.range_nat.
Qed.

Lemma dom_formatValues vals k :
  k ∈ dom (formatValues vals) ↔
  k ∈ dom vals ∧ keep_key (argumentRange (stringify <$> vals)) k.
Proof.
  rewrite !elem_of_dom, lookup_formatValues. case_decide as Hk.
  - rewrite fmap_is_Some. tauto.
  - split; [by intros [? ?]|tauto].
Qed.

End Normaliser.

(** *** The keys of the normalised values *)

Lemma parseEventLog_parsed (log : RawLog) (abiInterface : Interface) (p : ParsedLog) :
  parseLog abiInterface log = Parsed p ->
  ∃ r, parseEventLog log abiInterface = Some r ∧
       log_address r = Js.toLowerCase (address log) ∧
       log_values r = formatValues (values p).
Proof. intros H. unfold parseEventLog. rewrite H. eauto. Qed.

Lemma dom_formatValues_shape (vals : gmap string DecodedValue)
    (declared : list string) (n : nat) :
  decoder_shape declared n vals ->
  dom (formatValues vals) =
  list_to_set declared ∖ (list_to_set (positional_keys n) ∪ {["length"]}).
Proof.
  intros [Hlen Hdom]. apply set_eq. intros k.
  rewrite dom_formatValues, (argumentRange_length _ _ Hlen), Hdom.
  unfold keep_key.
  rewrite elem_of_difference, !elem_of_union, !elem_of_list_to_set, elem_of_singleton.
  tauto.
Qed.

(** C1 (amended): when a log decodes and the decoder's [values] hold the
    named parameters, their positional duplicates and [length], the keys of
    the record's values are exactly the declared names that are neither
    positional keys nor [length]: every positional key and [length] are
    removed, every other named parameter is kept. *)
Theorem parseEventLog_values_keys (log : RawLog) (abiInterface : Interface)
    (p : ParsedLog) (declared : list string) (n : nat) :
  parseLog abiInterface log = Parsed p ->
  decoder_shape declared n (values p) ->
  ∃ r, parseEventLog log abiInterface = Some r ∧
       dom (log_values r) =
       list_to_set declared ∖ (list_to_set (positional_keys n) ∪ {["length"]}).
Proof.
  intros Hp Hs.
  destruct (parseEventLog_parsed _ _ _ Hp) as (r & Hr & _ & Hv).
  exists r. split; [done|]. rewrite Hv. by apply dom_formatValues_shape.
Qed.

Lemma parseEventLog_values_keys_witness :
  ∃ r, parseEventLog Sample.transfer_log Sample.erc20 = Some r ∧
       dom (log_values r) =
       list_to_set ["from"; "to"; "amount"]
       ∖ (list_to_set (positional_keys 3) ∪ {["length"]}).
Proof.
  apply (parseEventLog_values_keys Sample.transfer_log Sample.erc20
           {| name := "Transfer";
              signature := "Transfer(address,address,uint256)";
              topic := Sample.transfer_topic;
              values := decoded_values
                          [("from", VString "0xDEF"); ("to", VString "0xGHI");
                           ("amount", VBigNumber 1000)] |}
           ["from"; "to"; "amount"] 3).
  - reflexivity.
  - split; [reflexivity|]. vm_compute. reflexivity.
Defined.

(** When no declared name collides with a positional key or with
    [length], the keys are the declared names. *)
Corollary parseEventLog_values_declared (log : RawLog) (abiInterface : Interface)
    (p : ParsedLog) (declared : list string) (n : nat) :
  parseLog abiInterface log = Parsed p ->
  decoder_shape declared n (values p) ->
  (∀ k, k ∈ declared -> (k ∉ positional_keys n) ∧ k ≠ "length") ->
  ∃ r, parseEventLog log abiInterface = Some r ∧
       dom (log_values r) = list_to_set declared.
Proof.
  intros Hp Hs Hfree.
  destruct (parseEventLog_parsed _ _ _ Hp) as (r & Hr & _ & Hv).
  exists r. split; [done|]. rewrite Hv, (dom_formatValues_shape _ _ _ Hs).
  apply set_eq. intros k.
  rewrite elem_of_difference, !elem_of_union, !elem_of_list_to_set, elem_of_singleton.
  split; [tauto|]. intros Hk. destruct (Hfree k Hk). tauto.
Qed.

(** C1 as stated fails for an event with a parameter called [length]:
    [event Resized(uint256 length)] decodes, its one declared name is
    [length], and the record's values have no key at all. *)
Lemma parseEventLog_drops_length_parameter :
  parseLog Sample.resizable Sample.resized_log =
    Parsed {| name := "Resized"; signature := "Resized(uint256)";
              topic := Sample.resized_topic;
              values := decoded_values [("length", VBigNumber 5)] |} ∧
  decoder_shape ["length"] 1 (decoded_values [("length", VBigNumber 5)]) ∧
  (dom ∘ log_values) <$> parseEventLog Sample.resized_log Sample.resizable
    = Some (∅ : gset string) ∧
  (∅ : gset string) ≠ list_to_set ["length"].
Proof.
  split; [reflexivity|]. split; [|split].
  - split; [reflexivity|]. vm_compute. reflexivity.
  - vm_compute. reflexivity.
  - vm_compute. discriminate.
Qed.

(** The object the decoder fills has the shape the normaliser expects. *)
Lemma fill_values_dom (inputs : list (string * DecodedValue)) (i : nat)
    (result : gmap string DecodedValue) (k : string) :
  k ∈ dom (fill_values i inputs result) ↔
  k ∈ dom result ∨ k ∈ map Js.decimal (map Z.of_nat (seq i (length inputs)))
  ∨ k ∈ declared_names inputs.
Proof.
  revert i result. induction inputs as [|[nm v] rest IH]; intros i result.
  - simpl. rewrite !elem_of_nil. tauto.
  - cbn [fill_values length seq map]. rewrite IH.
    unfold declared_names. cbn [map fst List.filter].
    destruct (Js.truthy_string nm) eqn:Hnm.
    + rewrite !dom_insert, !elem_of_union, !elem_of_singleton, !elem_of_cons.
      fold (declared_names rest). tauto.
    + rewrite !dom_insert, !elem_of_union, !elem_of_singleton, !elem_of_cons.
      fold (declared_names rest). tauto.
Qed.

Lemma decoded_values_shape (inputs : list (string * DecodedValue)) :
  decoder_shape (declared_names inputs) (length inputs) (decoded_values inputs).
Proof.
  split.
  - apply lookup_insert_eq.
  - apply set_eq. intros k. unfold decoded_values, positional_keys.
    rewrite dom_insert, !elem_of_union, !elem_of_singleton, fill_values_dom.
    rewrite !elem_of_list_to_set, dom_empty, elem_of_empty. tauto.
Qed.

(** *** Rendering of the values *)

(** C4: the record holds, under the key of each decoded value it keeps,
    the string form of that value, lowercased when it starts with [0x] and
    left as it is otherwise, and nothing else; numbers and big numbers come
    out as their decimal numeral; every named parameter of a decoder of the
    usual shape is kept in this form, and so is every value of a decoder
    that sets no [length]; and the record's address is the log's,
    lowercased. *)
Theorem parseEventLog_renders_values (log : RawLog) (abiInterface : Interface)
    (p : ParsedLog) :
  parseLog abiInterface log = Parsed p ->
  ∃ r, parseEventLog log abiInterface = Some r ∧
       log_address r = Js.toLowerCase (address log) ∧
       (∀ k s, log_values r !! k = Some s ->
          ∃ v, values p !! k = Some v ∧
               s = (if Js.startsWith (toString v) "0x"
                    then Js.toLowerCase (toString v) else toString v) ∧
               ∀ n, v = VNumber n ∨ v = VBigNumber n -> s = Js.decimal n) ∧
       (∀ declared n, decoder_shape declared n (values p) ->
          ∀ k, k ∈ declared -> k ∉ positional_keys n -> k ≠ "length" ->
            ∃ v, values p !! k = Some v ∧
                 log_values r !! k
                 = Some (if Js.startsWith (toString v) "0x"
                         then Js.toLowerCase (toString v) else toString v)) ∧
       (values p !! "length" = None ->
          ∀ k v, values p !! k = Some v ->
            log_values r !! k
            = Some (if Js.startsWith (toString v) "0x"
                    then Js.toLowerCase (toString v) else toString v)).
Proof.
  intros Hp.
  destruct (parseEventLog_parsed _ _ _ Hp) as (r & Hr & Ha & Hv).
  exists r. split; [done|]. split; [done|]. rewrite Hv. split; [|split].
  - intros k s. rewrite lookup_formatValues. case_decide; [|done].
    destruct (values p !! k) as [v|]; [|done]. simpl. intros [= <-].
    exists v. split; [done|]. split; [apply stringify_lowercase_if_hex|].
    intros n [->| ->]; [apply stringify_number|apply stringify_big_number].
  - intros declared n [Hlen Hdom] k Hk Hpos Hne.
    assert (k ∈ dom (values p)) as [v Hkv]%elem_of_dom.
    { rewrite Hdom, !elem_of_union, !elem_of_list_to_set. tauto. }
    exists v. split; [done|].
    rewrite lookup_formatValues, (argumentRange_length _ _ Hlen), Hkv.
    case_decide as Hkeep;
      [cbn [fmap option_fmap option_map]; f_equal; apply stringify_lowercase_if_hex|].
    exfalso. by apply Hkeep.
  - intros Hlen k v Hkv.
    assert (k ≠ "length") as Hne by (intros ->; by rewrite Hlen in Hkv).
    rewrite lookup_formatValues, Hkv.
    unfold argumentRange. rewrite lookup_fmap, Hlen. cbn [fmap option_fmap option_map].
    case_decide as Hkeep;
      [cbn [fmap option_fmap option_map]; f_equal; apply stringify_lowercase_if_hex|].
    exfalso. apply Hkeep. split; [apply not_elem_of_nil|done].
Qed.

(** The scenario of the design document: a transfer of 1000 from [0xDEF]
    to [0xGHI] logged by [0xABC]. *)
Lemma parseEventLog_renders_values_witness :
  ∃ r, parseEventLog Sample.transfer_log Sample.erc20 = Some r ∧
       log_address r = "0xabc" ∧
       log_values r !! "from" = Some "0xdef" ∧
       log_values r !! "to" = Some "0xghi" ∧
       log_values r !! "amount" = Some "1000" ∧
       dom (log_values r) = {[ "from"; "to"; "amount" ]}.
Proof.
  destruct (parseEventLog_renders_values Sample.transfer_log Sample.erc20
              {| name := "Transfer";
                 signature := "Transfer(address,address,uint256)";
                 topic := Sample.transfer_topic;
                 values := decoded_values
                             [("from", VString "0xDEF"); ("to", VString "0xGHI");
                              ("amount", VBigNumber 1000)] |} eq_refl)
    as (r & Hr & Ha & _ & Hk & _).
  exists r. split; [exact Hr|]. split; [exact Ha|].
  pose proof (Hk ["from"; "to"; "amount"] 3%nat
                ltac:(split; [reflexivity|vm_compute; reflexivity])) as Hk'.
  assert (∀ k, k ∈ ["from"; "to"; "amount"] ->
               (k ∉ positional_keys 3) ∧ k ≠ "length") as Hfree.
  { intros k Hin.
    repeat (apply elem_of_cons in Hin as [->|Hin]);
      [| | |by apply elem_of_nil in Hin];
      (split; [|discriminate]);
      change (positional_keys 3) with ["0"; "1"; "2"]; intros Hp;
      repeat (apply elem_of_cons in Hp as [Hp|Hp]; [discriminate Hp|]);
      by apply elem_of_nil in Hp. }
  split; [|split; [|split]].
  - assert ("from" ∈ ["from"; "to"; "amount"]) as Hin by (repeat constructor).
    destruct (Hfree _ Hin) as [Hpos Hne].
    destruct (Hk' _ Hin Hpos Hne) as (v & Hv & ->).
    injection Hv as <-. reflexivity.
  - assert ("to" ∈ ["from"; "to"; "amount"]) as Hin by (repeat constructor).
    destruct (Hfree _ Hin) as [Hpos Hne].
    destruct (Hk' _ Hin Hpos Hne) as (v & Hv & ->).
    injection Hv as <-. reflexivity.
  - assert ("amount" ∈ ["from"; "to"; "amount"]) as Hin by (repeat constructor).
    destruct (Hfree _ Hin) as [Hpos Hne].
    destruct (Hk' _ Hin Hpos Hne) as (v & Hv & ->).
    injection Hv as <-. reflexivity.
  - injection Hr as <-. vm_compute. reflexivity.
Defined.

(** The same values when the decoder emits the named parameters only. *)
Example formatValues_named_only :
  formatValues {[ "from" := VString "0xDEF"; "to" := VString "0xGHI";
                  "amount" := VBigNumber 1000 ]}
  = {[ "from" := "0xdef"; "to" := "0xghi"; "amount" := "1000" ]}.
Proof. vm_compute. reflexivity. Qed.

(** Text that does not start with [0x] keeps its case. *)
Example stringify_keeps_case : stringify (VString "Hello 0xAB") = "Hello 0xAB".
Proof. reflexivity. Qed.

(** A capital beyond ASCII is lowercased with the others: after [0x], a
    capital E with an acute accent (code unit 201) becomes the small one
    (233). *)
Example stringify_latin_capital :
  stringify (VString (String "0" (String "x" (String "201" EmptyString))))
  = String "0" (String "x" (String "233" EmptyString)).
Proof. reflexivity. Qed.

(** ** Batches and the decoder cache *)

Lemma parseEventLog_decodes (log : RawLog) (abiInterface : Interface) :
  is_Some (parseEventLog log abiInterface) ↔ decodes abiInterface log = true.
Proof.
  unfold parseEventLog, decodes.
  destruct (parseLog abiInterface log); split; intros H;
    try done; try (by destruct H); by eexists.
Qed.

Lemma parseEventLog_undecodable (log : RawLog) (abiInterface : Interface) :
  decodes abiInterface log = false -> parseEventLog log abiInterface = None.
Proof.
  unfold parseEventLog, decodes. by destruct (parseLog abiInterface log).
Qed.

Lemma length_omap_parseEventLog (abiInterface : Interface) (logs : list RawLog) :
  length (omap (fun log => parseEventLog log abiInterface) logs) =
  length (List.filter (decodes abiInterface) logs).
Proof.
  induction logs as [|log logs IH]; [done|].
  change (omap ?f (log :: logs)) with
    (match f log with Some y => y :: omap f logs | None => omap f logs end).
  cbn [List.filter].
  destruct (decodes abiInterface log) eqn:Hd.
  - apply parseEventLog_decodes in Hd as [r ->]. cbn [length]. by rewrite IH.
  - by rewrite (parseEventLog_undecodable _ _ Hd).
Qed.

Section Batches.

Context {Abi : Type} (newInterface : Abi -> Interface).
Implicit Types (abiInterfaces : gmap string Interface) (logs : list RawLog).

(** One decoder serves the whole batch. *)
Lemma parseEventLogs_records abiInterfaces logs (abi : Abi) :
  (parseEventLogs newInterface abiInterfaces logs abi).2 =
  omap (fun log => parseEventLog log (batch_decoder newInterface abiInterfaces logs abi))
       logs.
Proof.
  destruct logs as [|firstLog logs]; [done|].
  unfold parseEventLogs, batch_decoder.
  by destruct (abiInterfaces !! address firstLog).
Qed.

(** The cache after a batch. *)
Lemma parseEventLogs_cache abiInterfaces logs (abi : Abi) :
  (parseEventLogs newInterface abiInterfaces logs abi).1 =
  match logs with
  | [] => abiInterfaces
  | firstLog :: _ =>
      match abiInterfaces !! address firstLog with
      | Some _ => abiInterfaces
      | None => <[address firstLog := newInterface abi]> abiInterfaces
      end
  end.
Proof.
  destruct logs as [|firstLog logs]; [done|].
  unfold parseEventLogs. by destruct (abiInterfaces !! address firstLog).
Qed.

(** C5: a log whose decoding throws or returns nothing is normalised to
    nothing, without an exception; and of a batch in which exactly [K] logs
    decode, exactly [K] records come back, the others being left out. *)
Theorem parseEventLogs_drops_undecodable abiInterfaces logs (abi : Abi) (K : nat) :
  length (List.filter (decodes (batch_decoder newInterface abiInterfaces logs abi)) logs) = K ->
  (∀ abiInterface log,
     (∃ e, parseLog abiInterface log = ParseThrows e) ∨
     parseLog abiInterface log = ParseNothing ->
     parseEventLog log abiInterface = None) ∧
  length (parseEventLogs newInterface abiInterfaces logs abi).2 = K ∧
  (parseEventLogs newInterface abiInterfaces logs abi).2 =
  omap (fun log => parseEventLog log (batch_decoder newInterface abiInterfaces logs abi))
       logs.
Proof.
  intros HK. split; [|split].
  - intros abiInterface log H. unfold parseEventLog.
    destruct H as [[e ->]| ->]; done.
  - by rewrite parseEventLogs_records, length_omap_parseEventLog.
  - apply parseEventLogs_records.
Qed.

(** The decoder of a batch is the one the cache holds under the address
    of the first log, or else a new one, stored under that address; it
    decodes every log of the batch. *)
Lemma parseEventLogs_first_log_decoder abiInterfaces (abi : Abi) :
  parseEventLogs newInterface abiInterfaces [] abi = (abiInterfaces, []) ∧
  ∀ firstLog logs,
    ∃ abiInterface,
      (abiInterfaces !! address firstLog = Some abiInterface ∧
       (parseEventLogs newInterface abiInterfaces (firstLog :: logs) abi).1
         = abiInterfaces
       ∨
       abiInterfaces !! address firstLog = None ∧
       abiInterface = newInterface abi ∧
       (parseEventLogs newInterface abiInterfaces (firstLog :: logs) abi).1
         = <[address firstLog := abiInterface]> abiInterfaces) ∧
      (parseEventLogs newInterface abiInterfaces (firstLog :: logs) abi).1
        !! address firstLog = Some abiInterface ∧
      (parseEventLogs newInterface abiInterfaces (firstLog :: logs) abi).2
        = omap (fun log => parseEventLog log abiInterface) (firstLog :: logs).
Proof.
  split; [done|]. intros firstLog logs. unfold parseEventLogs.
  destruct (abiInterfaces !! address firstLog) as [cached|] eqn:Hc.
  - exists cached. split; [by left|]. by split.
  - exists (newInterface abi). split; [by right|].
    split; [apply lookup_insert_eq|done].
Qed.

(** Decoders cached under other addresses stay where they are. *)
Lemma parseEventLogs_cache_frame abiInterfaces logs (abi : Abi) (addr : string) :
  (∀ firstLog, head logs = Some firstLog -> address firstLog ≠ addr) ->
  (parseEventLogs newInterface abiInterfaces logs abi).1 !! addr
  = abiInterfaces !! addr.
Proof.
  intros H. rewrite parseEventLogs_cache.
  destruct logs as [|firstLog logs]; [done|].
  destruct (abiInterfaces !! address firstLog); [done|].
  apply lookup_insert_ne. by apply H.
Qed.

End Batches.

Lemma parseEventLogs_drops_undecodable_witness :
  length (parseEventLogs Sample.newInterface ∅
            [Sample.transfer_log; Sample.collectible_log; Sample.foreign_log]
            Sample.Erc20).2 = 1%nat.
Proof.
  apply (parseEventLogs_drops_undecodable Sample.newInterface ∅
           [Sample.transfer_log; Sample.collectible_log; Sample.foreign_log]
           Sample.Erc20 1).
  reflexivity.
Defined.

(** A batch whose second log comes from another contract: the decoder is
    cached under the first address only, and decodes both logs. *)
Example parseEventLogs_mixed_addresses :
  let batch := [Sample.transfer_log;
                Sample.raw "0xBEEF" [Sample.transfer_topic; "0x01"; "0x02"] "7" 994] in
  let run := parseEventLogs Sample.newInterface ∅ batch Sample.Erc20 in
  dom run.1 = {["0xABC"]} ∧ log_address <$> run.2 = ["0xabc"; "0xbeef"].
Proof. split; vm_compute; reflexivity. Qed.

Section CacheReuse.

Context {Abi : Type} (newInterface : Abi -> Interface).

(** A later batch whose first log has the same address is decoded by the
    decoder the earlier batch left in the cache, whatever ABI comes with
    it, and leaves the cache as it is. *)
Lemma parseEventLogs_reuses_decoder (abiInterfaces : gmap string Interface)
    (firstLog firstLog' : RawLog) (logs logs' : list RawLog) (abi abi' : Abi) :
  address firstLog' = address firstLog ->
  batch_decoder newInterface
    (parseEventLogs newInterface abiInterfaces (firstLog :: logs) abi).1
    (firstLog' :: logs') abi'
  = batch_decoder newInterface abiInterfaces (firstLog :: logs) abi ∧
  (parseEventLogs newInterface
     (parseEventLogs newInterface abiInterfaces (firstLog :: logs) abi).1
     (firstLog' :: logs') abi').1
  = (parseEventLogs newInterface abiInterfaces (firstLog :: logs) abi).1.
Proof.
  intros Ha. rewrite !parseEventLogs_cache. unfold batch_decoder. rewrite Ha.
  destruct (abiInterfaces !! address firstLog) as [cached|] eqn:Hc.
  - by rewrite Hc.
  - by rewrite lookup_insert_eq.
Qed.

End CacheReuse.

Lemma parseEventLogs_reuses_decoder_witness :
  batch_decoder Sample.newInterface
    (parseEventLogs Sample.newInterface ∅ [Sample.transfer_log] Sample.Erc20).1
    [Sample.transfer_log; Sample.foreign_log] Sample.Resizable
  = Sample.erc20.
Proof.
  destruct (parseEventLogs_reuses_decoder Sample.newInterface ∅
              Sample.transfer_log Sample.transfer_log [] [Sample.foreign_log]
              Sample.Erc20 Sample.Resizable eq_refl) as [H _].
  exact H.
Defined.

(** ** Hex encoding of block numbers *)

Module HexFacts.
Import Ethers.

Lemma hex_loop_zero (fuel : nat) (hex : string) : hex_loop fuel 0 hex = hex.
Proof. by destruct fuel. Qed.

Lemma nibble_cases (d : Z) :
  0 <= d < 16 ->
  d = 0 ∨ d = 1 ∨ d = 2 ∨ d = 3 ∨ d = 4 ∨ d = 5 ∨ d = 6 ∨ d = 7 ∨
  d = 8 ∨ d = 9 ∨ d = 10 ∨ d = 11 ∨ d = 12 ∨ d = 13 ∨ d = 14 ∨ d = 15.
Proof. lia. Qed.

Lemma digit_value_hex_char (d : Z) :
  0 <= d < 16 -> Js.digit_value (hex_char d) = Some d.
Proof.
  intros H. destruct (nibble_cases d H) as
    [->|[->|[->|[->|[->|[->|[->|[->|[->|[->|[->|[->|[->|[->|[->| ->]]]]]]]]]]]]]]];
    reflexivity.
Qed.

Lemma hex_char_not_zero (d : Z) : 0 < d < 16 -> hex_char d ≠ "0"%char.
Proof.
  intros H. assert (0 <= d < 16) as H' by lia.
  destruct (nibble_cases d H') as
    [->|[->|[->|[->|[->|[->|[->|[->|[->|[->|[->|[->|[->|[->|[->| ->]]]]]]]]]]]]]]];
    try lia; discriminate.
Qed.

Lemma land_15 (v : Z) : 0 <= v -> Z.land v 15 = v mod 16.
Proof. intros _. change 15 with (Z.ones 4). by rewrite Z.land_ones. Qed.

(** Reading the digits back gives the number. *)
Lemma digits_from_hex_loop (fuel : nat) :
  ∀ (v : Z) (hex : string),
    0 <= v < 16 ^ Z.of_nat fuel ->
    Js.digits_from 16 (hex_loop fuel v hex) 0 = Js.digits_from 16 hex v.
Proof.
  induction fuel as [|fuel IH]; intros v hex Hv.
  - simpl in *. by replace v with 0 by lia.
  - cbn [hex_loop]. destruct (Z.eqb_spec v 0) as [->|Hne]; [done|].
    rewrite Nat2Z.inj_succ, Z.pow_succ_r in Hv by lia.
    assert (0 <= v / 16 < 16 ^ Z.of_nat fuel) as Hq.
    { split; [apply Z.div_pos; lia|apply Z.div_lt_upper_bound; lia]. }
    rewrite (IH _ _ Hq). cbn [Js.digits_from].
    rewrite land_15 by lia.
    pose proof (Z.mod_pos_bound v 16 ltac:(lia)) as Hm.
    rewrite (digit_value_hex_char _ Hm).
    destruct (Z.ltb_spec (v mod 16) 16); [|lia].
    f_equal. pose proof (Z.div_mod v 16 ltac:(lia)). lia.
Qed.

(** The first digit is not a zero. *)
Lemma hex_loop_leading (fuel : nat) :
  ∀ (v : Z) (hex : string),
    0 < v < 16 ^ Z.of_nat fuel ->
    ∃ c r, hex_loop fuel v hex = String c r ∧ c ≠ "0"%char.
Proof.
  induction fuel as [|fuel IH]; intros v hex Hv.
  - simpl in Hv. lia.
  - cbn [hex_loop]. destruct (Z.eqb_spec v 0) as [->|Hne]; [lia|].
    rewrite Nat2Z.inj_succ, Z.pow_succ_r in Hv by lia.
    destruct (Z.eq_dec (v / 16) 0) as [Hz|Hnz].
    + rewrite Hz, hex_loop_zero. eexists _, _. split; [done|].
      apply hex_char_not_zero. rewrite land_15 by lia.
      pose proof (Z.div_mod v 16 ltac:(lia)).
      pose proof (Z.mod_pos_bound v 16 ltac:(lia)). lia.
    + apply IH. split.
      * pose proof (Z.div_pos v 16 ltac:(lia) ltac:(lia)). lia.
      * apply Z.div_lt_upper_bound; lia.
Qed.

Lemma hex_loop_all_hex (fuel : nat) :
  ∀ (v : Z) (hex : string),
    0 <= v -> all_hex hex = true -> all_hex (hex_loop fuel v hex) = true.
Proof.
  induction fuel as [|fuel IH]; intros v hex Hv Hh; [done|].
  cbn [hex_loop]. destruct (Z.eqb_spec v 0); [done|].
  apply IH; [apply Z.div_pos; lia|].
  cbn [all_hex]. rewrite Hh, andb_true_r. unfold is_hex_digit.
  rewrite land_15 by lia.
  by rewrite (digit_value_hex_char _ (Z.mod_pos_bound v 16 ltac:(lia))).
Qed.

Lemma strip_leading_digit (fuel : nat) (c : ascii) (r : string) :
  c ≠ "0"%char ->
  strip_loop fuel (String "0" (String "x" (String c r))) =
  String "0" (String "x" (String c r)).
Proof.
  intros Hc. destruct fuel; [done|]. cbn [strip_loop Js.startsWith].
  apply Ascii.eqb_neq in Hc. rewrite Ascii.eqb_sym in Hc. rewrite Hc.
  by rewrite !andb_false_r.
Qed.

Lemma strip_padding (fuel : nat) (c : ascii) (r : string) :
  c ≠ "0"%char ->
  strip_loop (S fuel) (String "0" (String "x" (String "0" (String c r)))) =
  String "0" (String "x" (String c r)).
Proof.
  intros Hc. cbn [strip_loop].
  assert ((3 <? String.length (String "0" (String "x" (String "0" (String c r)))))%nat
          && Js.startsWith (String "0" (String "x" (String "0" (String c r)))) "0x0"
          = true) as -> by reflexivity.
  change ("0x" +:+ substring_from 3 (String "0" (String "x" (String "0" (String c r)))))
    with (String "0" (String "x" (String c r))).
  by apply strip_leading_digit.
Qed.

(** A positive integer below [2 ^ 53 - 1] is encoded as [0x] and its
    digits. *)
Lemma hexStripZeros_hexlify (n : Z) :
  0 < n < 9007199254740991 ->
  bind (hexlify n) hexStripZeros = Ok ("0x" +:+ hex_digits n).
Proof.
  intros Hn. unfold hexlify.
  destruct (Z.ltb_spec n 0); [lia|].
  destruct (Z.leb_spec 9007199254740991 n); [lia|].
  assert (0 < n < 16 ^ Z.of_nat 14) as Hb by (change (16 ^ Z.of_nat 14) with 72057594037927936; lia).
  destruct (hex_loop_leading 14 n "" Hb) as (c & r & Hd & Hc).
  pose proof (hex_loop_all_hex 14 n "" ltac:(lia) eq_refl) as Hh.
  unfold hex_digits. rewrite Hd in *. cbn [bind].
  unfold hexStripZeros.
  destruct (Nat.odd (String.length (String c r))).
  - change ("0x" +:+ String "0" (String c r))
      with (String "0" (String "x" (String "0" (String c r)))).
    assert (isHexString (String "0" (String "x" (String "0" (String c r)))) = true)
      as -> by exact Hh.
    cbn [String.length].
    by rewrite (strip_padding _ c r Hc).
  - change ("0x" +:+ String c r) with (String "0" (String "x" (String c r))).
    assert (isHexString (String "0" (String "x" (String c r))) = true)
      as -> by exact Hh.
    by rewrite strip_leading_digit.
Qed.

Lemma hex_digit_not_space (c : ascii) :
  is_hex_digit c = true -> Js.is_space c = false.
Proof.
  destruct c as [[] [] [] [] [] [] [] []]; intros H;
    try reflexivity; discriminate H.
Qed.

Lemma all_hex_no_spaces (s : string) : all_hex s = true -> Js.no_spaces s = true.
Proof.
  induction s as [|c s IH]; simpl; [done|].
  intros [Hc Hs]%andb_true_iff.
  by rewrite (hex_digit_not_space _ Hc), (IH Hs).
Qed.

(** The encoding denotes the number: [Number] reads it back. *)
Lemma Number_hex_digits (n : Z) :
  0 < n < 9007199254740991 -> Js.Number ("0x" +:+ hex_digits n) = Js.Int n.
Proof.
  intros Hn.
  assert (0 < n < 16 ^ Z.of_nat 14) as Hb
    by (change (16 ^ Z.of_nat 14) with 72057594037927936; lia).
  destruct (hex_loop_leading 14 n "" Hb) as (c & r & Hd & Hc).
  pose proof (hex_loop_all_hex 14 n "" ltac:(lia) eq_refl) as Hh.
  pose proof (digits_from_hex_loop 14 n "" ltac:(lia)) as Hr.
  unfold hex_digits. rewrite Hd in *.
  change ("0x" +:+ String c r) with (String "0" (String "x" (String c r))).
  assert (Js.no_spaces (String "0" (String "x" (String c r))) = true) as Hs
    by exact (all_hex_no_spaces _ Hh).
  unfold Js.Number. rewrite (JsFacts.trim_no_spaces _ Hs).
  change (Js.radix_prefix (String "0" (String "x" (String c r))))
    with (Some (16, String c r)).
  cbv iota beta. unfold Js.digits. by rewrite Hr.
Qed.

End HexFacts.

(** ** The historical fetcher *)

Lemma block_tag_encoded (b : option Z) :
  safe_bound b -> block_tag b = Ok (encoded_bound b).
Proof.
  destruct b as [n|]; [|done]. unfold safe_bound, block_tag, encoded_bound.
  intros Hn. destruct (Z.eqb_spec n 0) as [->|Hne]; [done|].
  cbn [negb]. apply HexFacts.hexStripZeros_hexlify. lia.
Qed.

Lemma logParams_encoded (contractAddress : option string) (topic : TopicArg)
    (fromBlock toBlock : option Z) :
  safe_bound fromBlock -> safe_bound toBlock ->
  logParams contractAddress topic fromBlock toBlock =
  Ok {| query_address := address_or_undefined contractAddress;
        query_topics := match topic with TopicArray l => l | TopicSingle t => [t] end;
        query_fromBlock := encoded_bound fromBlock;
        query_toBlock := encoded_bound toBlock |}.
Proof.
  intros Hf Ht. unfold logParams.
  by rewrite (block_tag_encoded _ Hf), (block_tag_encoded _ Ht).
Qed.

(** A bound that is encoded at all is encoded as [encoded_bound] says. *)
Lemma block_tag_Ok (n : Z) (tag : string) :
  block_tag (Some n) = Ok tag -> tag = encoded_bound (Some n).
Proof.
  intros H.
  destruct (decide (0 <= n < 9007199254740991)) as [Hn|Hn].
  - rewrite (block_tag_encoded (Some n) Hn) in H. by injection H.
  - exfalso. revert H. unfold block_tag.
    destruct (Z.eqb_spec n 0) as [->|_]; [lia|]. cbn [negb].
    unfold Ethers.hexlify.
    destruct (Z.ltb_spec n 0); [done|].
    destruct (Z.leb_spec 9007199254740991 n); [done|lia].
Qed.

Lemma logParams_Ok (contractAddress : option string) (topic : TopicArg)
    (fromBlock toBlock : Z) (q : LogQuery) :
  logParams contractAddress topic (Some fromBlock) (Some toBlock) = Ok q ->
  query_fromBlock q = encoded_bound (Some fromBlock) ∧
  query_toBlock q = encoded_bound (Some toBlock).
Proof.
  unfold logParams.
  destruct (block_tag (Some fromBlock)) as [from|] eqn:Hf; [|done].
  destruct (block_tag (Some toBlock)) as [to|] eqn:Ht; [|done].
  cbn [bind]. intros [= <-]. cbn [query_fromBlock query_toBlock].
  by rewrite (block_tag_Ok _ _ Hf), (block_tag_Ok _ _ Ht).
Qed.

Section Fetcher.

Context {Abi Custom : Type} (newInterface : Abi -> Interface).
Implicit Types (abiInterfaces : gmap string Interface) (replies : list Reply)
  (parser : option (@Delivery Custom -> @Delivery Custom)).

(** Every run starts by sending the query built from the arguments. *)
Lemma fetchLogs_first_request replies abiInterfaces contractAddress (abi : Abi)
    topic fromBlock toBlock parser provider q :
  logParams contractAddress topic fromBlock toBlock = Ok q ->
  head (effects (fetchLogs newInterface replies abiInterfaces contractAddress abi
                   topic fromBlock toBlock parser provider))
  = Some (Request (transport_of provider) q).
Proof.
  intros Hq. destruct replies as [|[e|logs] replies]; cbn [fetchLogs]; rewrite Hq.
  - done.
  - done.
  - by destruct (parseEventLogs newInterface abiInterfaces logs abi).
Qed.

Lemma fetchLogs_success replies abiInterfaces contractAddress (abi : Abi)
    topic fromBlock toBlock parser provider q logs :
  logParams contractAddress topic fromBlock toBlock = Ok q ->
  fetchLogs newInterface (ReplyLogs logs :: replies) abiInterfaces contractAddress abi
    topic fromBlock toBlock parser provider
  = {| outcome := Resolved (delivered newInterface abiInterfaces logs abi parser);
       cache_after := (parseEventLogs newInterface abiInterfaces logs abi).1;
       effects := [Request (transport_of provider) q] |}.
Proof.
  intros Hq. cbn [fetchLogs]. rewrite Hq. unfold delivered.
  by destruct (parseEventLogs newInterface abiInterfaces logs abi).
Qed.

(** A run over [k] failures and then a success. *)
Lemma fetchLogs_after_failures (errors : list JsError) :
  ∀ replies abiInterfaces contractAddress (abi : Abi) topic fromBlock toBlock
    parser provider q logs,
    logParams contractAddress topic fromBlock toBlock = Ok q ->
    let run := fetchLogs newInterface
                 ((ReplyError <$> errors) ++ ReplyLogs logs :: replies)
                 abiInterfaces contractAddress abi topic fromBlock toBlock
                 parser provider in
    outcome run = Resolved (delivered newInterface abiInterfaces logs abi parser) ∧
    cache_after run = (parseEventLogs newInterface abiInterfaces logs abi).1 ∧
    effects run =
      attempts (transport_of provider) q (not_ready_message toBlock) errors ∧
    queries (effects run) = replicate (S (length errors)) q ∧
    delays (effects run) = replicate (length errors) 1000 ∧
    transports (effects run) =
      transport_of provider :: replicate (length errors) Web3GetPastLogs.
Proof.
  induction errors as [|e errors IH];
    intros replies abiInterfaces contractAddress abi tp fromBlock toBlock
      parser provider q logs Hq run.
  - subst run. cbn [fmap list_fmap app]. rewrite (fetchLogs_success _ _ _ _ _ _ _ _ _ _ _ Hq).
    by cbn.
  - subst run. cbn [fmap list_fmap app fetchLogs]. rewrite Hq. cbn [outcome cache_after effects].
    destruct (IH replies abiInterfaces contractAddress abi tp fromBlock toBlock
                parser None q logs Hq) as (Ho & Hc & He & Hqs & Hd & Ht).
    repeat split; [exact Ho|exact Hc|..].
    + cbn [attempts]. by rewrite He.
    + change (queries (Request ?v q :: ?c :: ?t :: ?r)) with (q :: queries r).
      by rewrite Hqs.
    + change (delays (?a :: ?c :: SetTimeout 1000 :: ?r)) with (1000 :: delays r).
      by rewrite Hd.
    + change (transports (Request ?v q :: ?c :: ?t :: ?r)) with (v :: transports r).
      by rewrite Ht.
Qed.

(** While the node keeps failing the promise stays pending: the run never
    gives up and never rejects. *)
Lemma fetchLogs_all_failures (errors : list JsError) :
  ∀ abiInterfaces contractAddress (abi : Abi) topic fromBlock toBlock
    parser provider q,
    logParams contractAddress topic fromBlock toBlock = Ok q ->
    let run := fetchLogs newInterface (ReplyError <$> errors)
                 abiInterfaces contractAddress abi topic fromBlock toBlock
                 parser provider in
    outcome run = Pending ∧
    queries (effects run) = replicate (S (length errors)) q ∧
    delays (effects run) = replicate (length errors) 1000.
Proof.
  induction errors as [|e errors IH];
    intros abiInterfaces contractAddress abi tp fromBlock toBlock
      parser provider q Hq run; subst run.
  - cbn [fmap list_fmap fetchLogs]. by rewrite Hq.
  - cbn [fmap list_fmap fetchLogs]. rewrite Hq. cbn [outcome effects].
    destruct (IH abiInterfaces contractAddress abi tp fromBlock toBlock
                parser None q Hq) as (Ho & Hqs & Hd).
    repeat split; [exact Ho|..].
    + change (queries (Request ?v q :: ?c :: ?t :: ?r)) with (q :: queries r).
      by rewrite Hqs.
    + change (delays (?a :: ?c :: SetTimeout 1000 :: ?r)) with (1000 :: delays r).
      by rewrite Hd.
Qed.

(** C3: when the transport fails, the same request is sent again after a
    wait of 1000 ms, whatever the number of failures; all the attempts
    carry the same query (a provider passed to the first call is not passed
    on: the later attempts go through the module's own transport); once an
    attempt succeeds the caller receives the normalised (and, with a
    parser, transformed) logs of that attempt; and as long as every attempt
    fails the promise is neither resolved nor rejected. *)
Theorem fetchLogs_retries_until_success (errors : list JsError) (logs : list RawLog)
    replies abiInterfaces contractAddress (abi : Abi) topic fromBlock toBlock
    parser provider q :
  logParams contractAddress topic fromBlock toBlock = Ok q ->
  outcome (fetchLogs newInterface
             ((ReplyError <$> errors) ++ ReplyLogs logs :: replies)
             abiInterfaces contractAddress abi topic fromBlock toBlock
             parser provider)
    = Resolved (delivered newInterface abiInterfaces logs abi parser) ∧
  queries (effects (fetchLogs newInterface
             ((ReplyError <$> errors) ++ ReplyLogs logs :: replies)
             abiInterfaces contractAddress abi topic fromBlock toBlock
             parser provider))
    = replicate (S (length errors)) q ∧
  delays (effects (fetchLogs newInterface
             ((ReplyError <$> errors) ++ ReplyLogs logs :: replies)
             abiInterfaces contractAddress abi topic fromBlock toBlock
             parser provider))
    = replicate (length errors) 1000 ∧
  effects (fetchLogs newInterface
             ((ReplyError <$> errors) ++ ReplyLogs logs :: replies)
             abiInterfaces contractAddress abi topic fromBlock toBlock
             parser provider)
    = attempts (transport_of provider) q (not_ready_message toBlock) errors ∧
  transports (effects (fetchLogs newInterface
             ((ReplyError <$> errors) ++ ReplyLogs logs :: replies)
             abiInterfaces contractAddress abi topic fromBlock toBlock
             parser provider))
    = transport_of provider :: replicate (length errors) Web3GetPastLogs ∧
  outcome (fetchLogs newInterface (ReplyError <$> errors)
             abiInterfaces contractAddress abi topic fromBlock toBlock
             parser provider)
    = Pending.
Proof.
  intros Hq.
  destruct (fetchLogs_after_failures errors replies abiInterfaces contractAddress
              abi topic fromBlock toBlock parser provider q logs Hq)
    as (Ho & _ & He & Hqs & Hd & Ht).
  destruct (fetchLogs_all_failures errors abiInterfaces contractAddress
              abi topic fromBlock toBlock parser provider q Hq) as (Hp & _).
  by repeat split.
Qed.

(** C9 (amended): when the bounds given are integers from [0] to
    [2 ^ 53 - 2], the query sent holds the address, the topics and the two
    bounds; a bound that is given and is not zero is [0x] followed by the
    hex digits of the number, without a leading zero, and reads back as
    the number; a bound that is not given is ["latest"]. *)
Theorem fetchLogs_query_bounds replies abiInterfaces contractAddress (abi : Abi)
    topic fromBlock toBlock parser provider :
  safe_bound fromBlock -> safe_bound toBlock ->
  ∃ q, logParams contractAddress topic fromBlock toBlock = Ok q ∧
       head (effects (fetchLogs newInterface replies abiInterfaces contractAddress
                        abi topic fromBlock toBlock parser provider))
         = Some (Request (transport_of provider) q) ∧
       query_address q = address_or_undefined contractAddress ∧
       query_topics q = match topic with TopicArray l => l | TopicSingle t => [t] end ∧
       query_fromBlock q = encoded_bound fromBlock ∧
       query_toBlock q = encoded_bound toBlock ∧
       encoded_bound None = "latest" ∧
       ∀ n, fromBlock = Some n ∨ toBlock = Some n -> n ≠ 0 ->
            encoded_bound (Some n) = "0x" +:+ hex_digits n ∧
            (∃ c r, hex_digits n = String c r ∧ c ≠ "0"%char) ∧
            Js.Number (encoded_bound (Some n)) = Js.Int n.
Proof.
  intros Hf Ht. eexists. split; [by apply logParams_encoded|].
  split; [by apply fetchLogs_first_request, logParams_encoded|].
  repeat split; try done.
  - unfold encoded_bound. by destruct (Z.eqb_spec n 0).
  - assert (0 < n < 16 ^ Z.of_nat 14) as Hb.
    { change (16 ^ Z.of_nat 14) with 72057594037927936.
      destruct H as [->| ->]; simpl in *; lia. }
    apply (HexFacts.hex_loop_leading 14 n "" Hb).
  - unfold encoded_bound. destruct (Z.eqb_spec n 0); [done|].
    apply HexFacts.Number_hex_digits. destruct H as [->| ->]; simpl in *; lia.
Qed.

End Fetcher.

(** The test of the design document: the node fails twice, then answers
    with one transfer. *)
Lemma fetchLogs_retries_until_success_witness :
  let q := {| query_address := Some "0xABC";
              query_topics := [TopicIs Sample.transfer_topic];
              query_fromBlock := "0x3dd"; query_toBlock := "0x3e7" |} in
  let run := fetchLogs (Custom:=unit) Sample.newInterface
               [ReplyError (Error "not ready"); ReplyError (Error "not ready");
                ReplyLogs [Sample.transfer_log]]
               ∅ (Some "0xABC") Sample.Erc20
               (TopicArray [TopicIs Sample.transfer_topic])
               (Some 989) (Some 999) None None in
  outcome run
    = Resolved (Sequence (Some <$> (parseEventLogs Sample.newInterface ∅
                                      [Sample.transfer_log] Sample.Erc20).2)) ∧
  queries (effects run) = [q; q; q] ∧
  delays (effects run) = [1000; 1000].
Proof.
  destruct (fetchLogs_retries_until_success (Custom:=unit) Sample.newInterface
              [Error "not ready"; Error "not ready"] [Sample.transfer_log] []
              ∅ (Some "0xABC") Sample.Erc20
              (TopicArray [TopicIs Sample.transfer_topic])
              (Some 989) (Some 999) None None
              {| query_address := Some "0xABC";
                 query_topics := [TopicIs Sample.transfer_topic];
                 query_fromBlock := "0x3dd"; query_toBlock := "0x3e7" |}
              eq_refl) as (Ho & Hq & Hd & _).
  split; [exact Ho|]. split; [exact Hq|exact Hd].
Defined.

Lemma fetchLogs_query_bounds_witness :
  ∃ q, logParams (Some "0xABC") (TopicArray [TopicIs Sample.transfer_topic])
         (Some 989) (Some 999) = Ok q ∧
       query_fromBlock q = "0x3dd" ∧ query_toBlock q = "0x3e7".
Proof.
  destruct (fetchLogs_query_bounds (Custom:=unit) Sample.newInterface
              [] ∅ (Some "0xABC") Sample.Erc20
              (TopicArray [TopicIs Sample.transfer_topic])
              (Some 989) (Some 999) None None)
    as (q & Hq & _ & _ & _ & Hf & Ht & _).
  - simpl. lia.
  - simpl. lia.
  - exists q. split; [exact Hq|]. split; [exact Hf|exact Ht].
Defined.

(** C9 as stated fails for a bound of zero: it is given, and the query
    carries ["latest"], which is no hex string.  And a negative bound (a
    back-fill count beyond the head) makes the call fail before any query
    is sent. *)
Lemma fetchLogs_zero_bound_is_latest :
  (query_toBlock <$>
     head (queries (effects (fetchLogs (Custom:=unit) Sample.newInterface
                               [] ∅ (Some "0xABC") Sample.Erc20
                               (TopicArray [TopicIs Sample.transfer_topic])
                               (Some 1) (Some 0) None None))))
    = Some "latest" ∧
  Ethers.isHexString "latest" = false ∧
  (fun run => (match outcome run with Rejected _ => true | _ => false end,
               effects run))
    (fetchLogs (Custom:=unit) Sample.newInterface
       [ReplyLogs []] ∅ (Some "0xABC") Sample.Erc20
       (TopicArray [TopicIs Sample.transfer_topic]) (Some (-6)) (Some 4) None None)
  = (true, []).
Proof.
  split; [vm_compute; reflexivity|]. split; reflexivity.
Qed.

(** ** The decoder cache seen from a fetch *)

Section CacheKey.

Context {Abi Custom : Type} (newInterface : Abi -> Interface).
Implicit Types (abiInterfaces : gmap string Interface).

(** C10: an empty batch comes back as it is and leaves the cache alone;
    for a batch that is not empty the decoder is the one the cache holds
    under the address of the first log, or else a new one, stored under
    that address; this decoder decodes every log of the batch, whatever
    the log's own address; and a fetch updates the cache by the logs it
    received, whatever contract address it was issued for. *)
Theorem decoder_cached_under_first_log_address abiInterfaces (abi : Abi) :
  parseEventLogs newInterface abiInterfaces [] abi = (abiInterfaces, []) ∧
  (∀ firstLog logs,
    ∃ abiInterface,
      (abiInterfaces !! address firstLog = Some abiInterface ∧
       (parseEventLogs newInterface abiInterfaces (firstLog :: logs) abi).1
         = abiInterfaces
       ∨
       abiInterfaces !! address firstLog = None ∧
       abiInterface = newInterface abi ∧
       (parseEventLogs newInterface abiInterfaces (firstLog :: logs) abi).1
         = <[address firstLog := abiInterface]> abiInterfaces) ∧
      (parseEventLogs newInterface abiInterfaces (firstLog :: logs) abi).1
        !! address firstLog = Some abiInterface ∧
      (parseEventLogs newInterface abiInterfaces (firstLog :: logs) abi).2
        = omap (fun log => parseEventLog log abiInterface) (firstLog :: logs)) ∧
  (∀ replies contractAddress tp fromBlock toBlock
     (parser : option (@Delivery Custom -> @Delivery Custom)) provider q logs,
     logParams contractAddress tp fromBlock toBlock = Ok q ->
     cache_after (fetchLogs newInterface (ReplyLogs logs :: replies) abiInterfaces
                    contractAddress abi tp fromBlock toBlock parser provider)
     = (parseEventLogs newInterface abiInterfaces logs abi).1).
Proof.
  destruct (parseEventLogs_first_log_decoder newInterface abiInterfaces abi)
    as [Hempty Hbatch].
  split; [exact Hempty|]. split; [exact Hbatch|].
  intros replies contractAddress tp fromBlock toBlock parser provider q logs Hq.
  by rewrite (fetchLogs_success _ _ _ _ _ _ _ _ _ _ _ _ Hq).
Qed.

End CacheKey.

(** A fetch issued for [0xabc] whose first log is addressed [0xABC]: the
    decoder is cached under the log's spelling. *)
Example fetchLogs_caches_under_log_address :
  dom (cache_after (fetchLogs (Custom:=unit) Sample.newInterface
                      [ReplyLogs [Sample.transfer_log]] ∅ (Some "0xabc")
                      Sample.Erc20 (TopicArray [TopicIs Sample.transfer_topic])
                      (Some 989) (Some 999) None None))
  = {["0xABC"]}.
Proof. vm_compute. reflexivity. Qed.

(** ** The live subscription *)

Section Subscriptions.

Context {Abi Custom : Type} (newInterface : Abi -> Interface).

(** C8: without a parser, every log pushed on the subscription makes the
    handler call the callback once, with a sequence of one element, the
    result of normalising the log; when the log does not decode the call
    is still made and the element is [null]. *)
Theorem subscribe_calls_back_with_singleton (contractAddress : option string)
    (abi : Abi) (tp : list TopicFilter) (fromBlock : Z) (callback : string)
    (error : option JsError) (log : RawLog) :
  sub_handler (subscribe (Custom:=Custom) newInterface contractAddress abi tp
                 fromBlock callback None) error (Some log)
  = match error with Some e => [ConsoleLogError e] | None => [] end
    ++ [Callback callback (Sequence [parseEventLog log (newInterface abi)])] ∧
  (decodes (newInterface abi) log = false ->
   sub_handler (subscribe (Custom:=Custom) newInterface contractAddress abi tp
                  fromBlock callback None) None (Some log)
   = [Callback callback (Sequence [None])]).
Proof.
  split; [done|]. intros Hd.
  change (sub_handler (subscribe newInterface contractAddress abi tp fromBlock
                         callback None) None (Some log))
    with [Callback (Custom:=Custom) callback
            (Sequence [parseEventLog log (newInterface abi)])].
  by rewrite (parseEventLog_undecodable _ _ Hd).
Qed.

(** With a parser the callback gets what the parser makes of the single
    record. *)
Lemma subscribe_with_parser (contractAddress : option string)
    (abi : Abi) (tp : list TopicFilter) (fromBlock : Z) (callback : string)
    (parser : @Delivery Custom -> @Delivery Custom) (log : RawLog) :
  sub_handler (subscribe newInterface contractAddress abi tp fromBlock callback
                 (Some parser)) None (Some log)
  = [Callback callback (parser (Single (parseEventLog log (newInterface abi))))].
Proof. done. Qed.

(** The filter of the subscription: empty fields are left out. *)
Lemma subscribe_filter (contractAddress : option string)
    (abi : Abi) (tp : list TopicFilter) (fromBlock : Z) (callback : string)
    (parser : option (@Delivery Custom -> @Delivery Custom)) :
  sub_channel (subscribe newInterface contractAddress abi tp fromBlock callback parser)
    = "logs" ∧
  sub_filter (subscribe newInterface contractAddress abi tp fromBlock callback parser)
    = {| filter_address := address_or_undefined contractAddress;
         filter_topics := Some tp;
         filter_fromBlock := if decide (fromBlock = 0) then None else Some fromBlock |}.
Proof.
  split; [done|]. cbn [subscribe sub_filter truthy_number].
  case_decide as H; [by rewrite H|].
  by destruct (Z.eqb_spec fromBlock 0).
Qed.

End Subscriptions.

(** A collectible's transfer pushed on a token subscription. *)
Lemma subscribe_calls_back_with_singleton_witness :
  sub_handler (subscribe (Custom:=unit) Sample.newInterface (Some "0xABC")
                 Sample.Erc20 [TopicIs Sample.transfer_topic] 999 "onTransfer" None)
    None (Some Sample.collectible_log)
  = [Callback "onTransfer" (Sequence [None])].
Proof.
  apply (subscribe_calls_back_with_singleton (Custom:=unit) Sample.newInterface
           (Some "0xABC") Sample.Erc20 [TopicIs Sample.transfer_topic] 999
           "onTransfer" None Sample.collectible_log).
  reflexivity.
Defined.

(** ** The topic filter deriver *)

Lemma elem_of_uniq_from (seen l : list string) (x : string) :
  x ∈ uniq_from seen l ↔ x ∈ l ∧ x ∉ seen.
Proof.
  revert seen. induction l as [|y l IH]; intros seen; simpl.
  - rewrite elem_of_nil. tauto.
  - case_decide as Hy.
    + rewrite IH, elem_of_cons. split; [tauto|].
      intros [[->|?] ?]; tauto.
    + rewrite elem_of_cons, IH, !elem_of_cons.
      destruct (decide (x = y)) as [->|]; tauto.
Qed.

Lemma NoDup_uniq_from (seen l : list string) : NoDup (uniq_from seen l).
Proof.
  revert seen. induction l as [|y l IH]; intros seen; simpl.
  - constructor.
  - case_decide; [apply IH|]. constructor; [|apply IH].
    rewrite elem_of_uniq_from, elem_of_cons. tauto.
Qed.

Lemma sublist_uniq_from (seen l : list string) : uniq_from seen l `sublist_of` l.
Proof.
  revert seen. induction l as [|y l IH]; intros seen; simpl; [done|].
  case_decide; [by apply sublist_cons|by apply sublist_skip].
Qed.

(** [_.uniq] keeps the first occurrence of each element: the head stays,
    and the rest is treated alike once the head is taken out of it. *)
Lemma uniq_from_ext (seen seen' l : list string) :
  (∀ y, y ∈ seen ↔ y ∈ seen') -> uniq_from seen l = uniq_from seen' l.
Proof.
  revert seen seen'. induction l as [|x l IH]; intros seen seen' H; [done|].
  cbn [uniq_from]. destruct (decide (x ∈ seen)) as [Hx|Hx].
  - rewrite decide_True by (by apply H). by apply IH.
  - rewrite decide_False by (by rewrite <- H). f_equal. apply IH.
    intros y. rewrite !elem_of_cons, H. done.
Qed.

Lemma uniq_from_app_filter (s1 s2 l : list string) :
  uniq_from (s1 ++ s2) l
  = uniq_from s2 (List.filter (fun y => bool_decide (y ∉ s1)) l).
Proof.
  revert s2. induction l as [|x l IH]; intros s2; [done|].
  cbn [uniq_from List.filter].
  destruct (decide (x ∈ s1)) as [H1|H1].
  - rewrite decide_True by (apply elem_of_app; tauto).
    rewrite bool_decide_eq_false_2 by tauto. apply IH.
  - rewrite bool_decide_eq_true_2 by done. cbn [uniq_from].
    destruct (decide (x ∈ s2)) as [H2|H2].
    + rewrite decide_True by (apply elem_of_app; tauto). apply IH.
    + rewrite decide_False by (rewrite elem_of_app; tauto). f_equal.
      rewrite <- IH. apply uniq_from_ext. intros y.
      rewrite !elem_of_cons, !elem_of_app, !elem_of_cons. tauto.
Qed.

Lemma uniq_cons (x : string) (l : list string) :
  uniq (x :: l) = x :: uniq (List.filter (fun y => bool_decide (y ∉ [x])) l).
Proof.
  unfold uniq. cbn [uniq_from].
  rewrite decide_False by apply not_elem_of_nil. f_equal.
  apply (uniq_from_app_filter [x] [] l).
Qed.

Lemma find_none_iff {A} (f : A -> bool) (l : list A) :
  List.find f l = None ↔ ∀ x, x ∈ l -> f x = false.
Proof.
  induction l as [|a l IH]; simpl.
  - split; [|done]. intros _ x Hx. by apply elem_of_nil in Hx.
  - destruct (f a) eqn:Ha.
    + split; [done|]. intros H. rewrite (H a) in Ha; [done|]. by left.
    + rewrite IH. split.
      * intros H x [->|Hx]%elem_of_cons; auto.
      * intros H x Hx. apply H. by right.
Qed.

(** No declared event answers to [name]. *)
Lemma mappedEvents_lookup_None (evs : list (string * EventDescription)) (nm : string) :
  mappedEvents_lookup evs nm = None ↔
  ∀ key d, (key, d) ∈ evs -> base_name key ≠ nm.
Proof.
  unfold mappedEvents_lookup. rewrite fmap_None, find_none_iff. split.
  - intros H key d Hin. apply String.eqb_neq.
    apply (H (key, d)). by apply elem_of_reverse.
  - intros H [key d] Hin. apply String.eqb_neq. apply (H key d).
    by apply elem_of_reverse.
Qed.

(** The event found for a name is a declared one whose key has that
    base name. *)
Lemma mappedEvents_lookup_Some (evs : list (string * EventDescription)) (nm : string)
    (abiEvent : EventDescription) :
  mappedEvents_lookup evs nm = Some abiEvent ->
  ∃ key, (key, abiEvent) ∈ evs ∧ base_name key = nm.
Proof.
  unfold mappedEvents_lookup. intros ([key d] & Hf & ->)%fmap_Some.
  apply List.find_some in Hf as [Hin Heq]. simpl in *.
  exists key. split.
  - apply elem_of_reverse. by apply list_elem_of_In.
  - by apply String.eqb_eq.
Qed.

Section Deriver.

Context {Abi Custom : Type} (newInterface : Abi -> Interface).
Implicit Types (event : @EventDescriptor Abi Custom).

Lemma paramsArray_filter (params : gmap string ParamValue) (inputs : list string) :
  paramsArray (filter (fun kv => truthy kv.2 = true) params) inputs
  = map (filter_value params) inputs.
Proof.
  unfold paramsArray. apply map_ext. intros inputName. unfold filter_value.
  destruct (params !! inputName) as [v|] eqn:Hv.
  - destruct (truthy v) eqn:Ht.
    + rewrite (proj2 (map_lookup_filter_Some _ _ _ _)) by done.
      by destruct v.
    + rewrite (proj2 (map_lookup_filter_None _ _ _)); [done|].
      right. intros v' Hv'. simpl. rewrite Hv in Hv'. injection Hv' as <-.
      by rewrite Ht.
  - rewrite (proj2 (map_lookup_filter_None _ _ _)); [done|]. by left.
Qed.

Lemma getEventTopics_known event (abiEvent : EventDescription) :
  mappedEvents_lookup (events (newInterface (ev_abi event))) (ev_name event)
    = Some abiEvent ->
  getEventTopics newInterface event
  = encodeFilterTopics (newInterface (ev_abi event)) (ev_name event)
      (map (filter_value (default ∅ (ev_params event))) (event_inputs abiEvent)).
Proof.
  intros H. unfold getEventTopics, mappedEvents_get.
  by rewrite H, paramsArray_filter.
Qed.

Lemma getEventTopics_unknown event :
  mappedEvents_lookup (events (newInterface (ev_abi event))) (ev_name event) = None ->
  ev_name event ∉ Js.Object_prototype ->
  getEventTopics newInterface event
  = Throw (not_an_event (ev_name event) (possible_events (newInterface (ev_abi event)))).
Proof.
  intros H Hp. unfold getEventTopics, mappedEvents_get. rewrite H.
  by case_decide.
Qed.

(** A name that is not declared but that every object inherits gets past
    the test for an unknown event. *)
Lemma getEventTopics_inherited event :
  mappedEvents_lookup (events (newInterface (ev_abi event))) (ev_name event) = None ->
  ev_name event ∈ Js.Object_prototype ->
  getEventTopics newInterface event = Throw TypeError.
Proof.
  intros H Hp. unfold getEventTopics, mappedEvents_get. rewrite H.
  by case_decide.
Qed.


(** C7 (amended): for an event name that no declared event answers to
    and that is not one of the names every object inherits,
    [getEventTopics] throws, and the message lists every declared event
    name once, in the order of first declaration. *)
Theorem getEventTopics_unknown_event event :
  (∀ key d, (key, d) ∈ events (newInterface (ev_abi event)) ->
            base_name key ≠ ev_name event) ->
  ev_name event ∉ Js.Object_prototype ->
  ∃ names,
    getEventTopics newInterface event
    = Throw (Error (ev_name event +:+ " not an abi event, possible events are "
                    +:+ Js.join ", " names)) ∧
    NoDup names ∧
    (∀ n, n ∈ names ↔
          ∃ key d, (key, d) ∈ events (newInterface (ev_abi event)) ∧ event_name d = n) ∧
    names `sublist_of`
      map (fun kv => event_name kv.2) (events (newInterface (ev_abi event))) ∧
    names = possible_events (newInterface (ev_abi event)).
Proof.
  intros H Hp. apply mappedEvents_lookup_None in H.
  exists (possible_events (newInterface (ev_abi event))).
  split; [by apply getEventTopics_unknown|].
  unfold possible_events, uniq.
  split; [apply NoDup_uniq_from|]. split; [|split; [apply sublist_uniq_from|done]].
  intros n. rewrite elem_of_uniq_from, elem_of_nil, list_elem_of_fmap. split.
  - intros [([key d] & -> & Hin) _]. by exists key, d.
  - intros (key & d & Hin & <-). split; [|tauto]. by exists (key, d).
Qed.

End Deriver.



Lemma getEventTopics_unknown_event_witness :
  getEventTopics Sample.newInterface Sample.mint_descriptor
  = Throw (Error "Mint not an abi event, possible events are Transfer, Approval").
Proof.
  destruct (getEventTopics_unknown_event Sample.newInterface Sample.mint_descriptor)
    as (names & Ht & _ & _ & _ & Hn).
  - apply mappedEvents_lookup_None. reflexivity.
  - intros H. repeat (apply elem_of_cons in H as [H|H]; [discriminate H|]).
    by apply elem_of_nil in H.
  - rewrite Ht, Hn. reflexivity.
Defined.

(** C7 as stated fails on the order: the token ABI declares [Transfer]
    before [Approval], and the message lists them in that order, which is
    not the sorted one. *)
Lemma getEventTopics_lists_in_declaration_order :
  getEventTopics Sample.newInterface Sample.mint_descriptor
    = Throw (Error "Mint not an abi event, possible events are Transfer, Approval") ∧
  possible_events Sample.erc20 = ["Transfer"; "Approval"] ∧
  ¬ Sorted String.le ["Transfer"; "Approval"].
Proof.
  split; [reflexivity|]. split; [reflexivity|].
  intros H. apply Sorted_inv in H as [_ H]. apply HdRel_inv in H.
  vm_compute in H. done.
Qed.

(** Asked for an event called [toString], which the token ABI does not
    declare, the deriver does not reach its own error: the name is one
    every object inherits. *)
Example getEventTopics_inherited_name :
  getEventTopics Sample.newInterface (Sample.descriptor "toString" None None None)
  = Throw TypeError.
Proof. reflexivity. Qed.

(** ** The event tracker *)

Section Tracker.

Context {Abi Custom : Type} (newInterface : Abi -> Interface).
Implicit Types (event : @EventDescriptor Abi Custom).

Lemma fetches_fetchHistoricalLogs (contractAddress : option string) (abi : Abi)
    (tp : list TopicFilter) (fromBlock toBlock : Z) (callback : string)
    (onFetching onFetched : option string)
    (parser : option (@Delivery Custom -> @Delivery Custom)) :
  fetches (fetchHistoricalLogs contractAddress abi tp fromBlock toBlock callback
             onFetching onFetched parser)
  = [{| hist_contract := contractAddress; hist_abi := abi; hist_topics := tp;
        hist_fromBlock := fromBlock; hist_toBlock := toBlock;
        hist_parser := parser; hist_onFetched := onFetched;
        hist_callback := callback |}] ∧
  subscriptions (fetchHistoricalLogs contractAddress abi tp fromBlock toBlock
                   callback onFetching onFetched parser) = [].
Proof. by destruct onFetching. Qed.

Lemma fetches_app (a b : list (@Action Abi Custom)) :
  fetches (a ++ b) = fetches a ++ fetches b.
Proof. apply omap_app. Qed.

Lemma subscriptions_app (a b : list (@Action Abi Custom)) :
  subscriptions (a ++ b) = subscriptions a ++ subscriptions b.
Proof. apply omap_app. Qed.

(** What [subscribeToEvent] starts once the topics are derived. *)
Lemma subscribeToEvent_actions event (blockNumber : Z) (tp : list TopicFilter) :
  getEventTopics newInterface event = Ok tp ->
  ∃ actions,
    subscribeToEvent newInterface event blockNumber = Ok actions ∧
    fetches actions =
      match fromBlockNumberOverride event blockNumber with
      | Some start =>
          if decide (start = 0) then []
          else [{| hist_contract := ev_contract event; hist_abi := ev_abi event;
                   hist_topics := tp; hist_fromBlock := start;
                   hist_toBlock := blockNumber; hist_parser := ev_parser event;
                   hist_onFetched := ev_onFetchedHistoricalEvents event;
                   hist_callback := ev_callback event |}]
      | None => []
      end ∧
    subscriptions actions =
      [subscribe newInterface (ev_contract event) (ev_abi event) tp blockNumber
         (ev_callback event) (ev_parser event)] ∧
    last actions =
      Some (OpenSubscription
              (subscribe newInterface (ev_contract event) (ev_abi event) tp
                 blockNumber (ev_callback event) (ev_parser event))).
Proof.
  intros Ht. unfold subscribeToEvent. rewrite Ht. cbn [bind].
  eexists. split; [done|].
  rewrite fetches_app, subscriptions_app, last_snoc.
  destruct (fromBlockNumberOverride event blockNumber) as [start|]; [|done].
  cbn [truthy_number]. case_decide as Hs.
  - subst start. done.
  - destruct (Z.eqb_spec start 0) as [|_]; [done|]. cbn [negb].
    destruct (fetches_fetchHistoricalLogs (ev_contract event) (ev_abi event) tp
                start blockNumber (ev_callback event)
                (ev_onFetchingHistoricalEvents event)
                (ev_onFetchedHistoricalEvents event) (ev_parser event)) as [-> ->].
    done.
Qed.

(** What [trackEvent] starts when the topics are derived. *)
Lemma trackEvent_actions (trackedEvents : list EventDescriptor)
    (h : Z) event (tp : list TopicFilter) :
  getEventTopics newInterface event = Ok tp ->
  ∃ actions,
    trackEvent newInterface trackedEvents h event
      = Ok (actions, trackedEvents ++ [event], true) ∧
    (∀ start, fromBlockNumberOverride event (h - 1) = Some start -> start ≠ 0 ->
       ∃ f, fetches actions = [f] ∧
            hist_fromBlock f = start ∧ hist_toBlock f = h - 1 ∧
            hist_topics f = tp ∧ hist_contract f = ev_contract event ∧
            hist_callback f = ev_callback event) ∧
    (fromBlockNumberOverride event (h - 1) = None -> fetches actions = []) ∧
    (∃ s, subscriptions actions = [s] ∧ last actions = Some (OpenSubscription s) ∧
          s = subscribe newInterface (ev_contract event) (ev_abi event) tp (h - 1)
                (ev_callback event) (ev_parser event) ∧
          filter_topics (sub_filter s) = Some tp ∧
          (h - 1 ≠ 0 -> filter_fromBlock (sub_filter s) = Some (h - 1))).
Proof.
  intros Ht.
  destruct (subscribeToEvent_actions event (h - 1) tp Ht)
    as (actions & Ha & Hf & Hs & Hl).
  exists actions. split; [by unfold trackEvent; rewrite Ha|].
  split; [|split].
  - intros start Hstart Hne. rewrite Hf, Hstart.
    case_decide; [done|]. by eexists.
  - intros Hnone. by rewrite Hf, Hnone.
  - eexists. split; [exact Hs|]. split; [exact Hl|]. split; [done|].
    split; [done|]. intros Hne.
    cbn [subscribe sub_filter filter_fromBlock truthy_number].
    by destruct (Z.eqb_spec (h - 1) 0).
Qed.

(** When the topics cannot be derived nothing is started and the
    descriptor is not recorded: the exception leaves [trackEvent]. *)
Lemma trackEvent_throws (trackedEvents : list EventDescriptor) (h : Z) event
    (e : JsError) :
  getEventTopics newInterface event = Throw e ->
  trackEvent newInterface trackedEvents h event = Throw e.
Proof.
  intros Ht. unfold trackEvent, subscribeToEvent. by rewrite Ht.
Qed.

(** C2 (amended): [trackEvent] takes the head block [h] and works with
    block [h - 1]; the starting block is the descriptor's [fromBlock] when
    it has one, else [h - 1 - backFillBlockCount] when it has that, else
    there is none.  When the topics cannot be derived, [trackEvent] throws
    and starts nothing.  Otherwise it records the descriptor; a starting
    block other than zero starts one historical fetch, called with the
    starting block and with [h - 1], whose query carries the hex of the
    first and the hex of the second, or ["latest"] when [h - 1] is zero; no
    starting block starts none; and in each of these cases one live
    subscription is opened, last, whose filter starts at [h - 1], or has no
    [fromBlock] when [h - 1] is zero. *)
Theorem trackEvent_backfill_and_subscription (trackedEvents : list EventDescriptor)
    (h : Z) event :
  fromBlockNumberOverride event (h - 1)
    = match ev_fromBlock event with
      | Some fromBlock => Some fromBlock
      | None => (fun count => h - 1 - count) <$> ev_backFillBlockCount event
      end ∧
  match getEventTopics newInterface event with
  | Throw e => trackEvent newInterface trackedEvents h event = Throw e
  | Ok tp =>
      ∃ actions,
        trackEvent newInterface trackedEvents h event
          = Ok (actions, trackedEvents ++ [event], true) ∧
        (∀ start, fromBlockNumberOverride event (h - 1) = Some start -> start ≠ 0 ->
           ∃ f, fetches actions = [f] ∧
                hist_fromBlock f = start ∧ hist_toBlock f = h - 1 ∧
                hist_topics f = tp ∧ hist_contract f = ev_contract event ∧
                hist_callback f = ev_callback event ∧
                ∀ q, logParams (hist_contract f) (TopicArray (hist_topics f))
                       (Some (hist_fromBlock f)) (Some (hist_toBlock f)) = Ok q ->
                     query_fromBlock q = "0x" +:+ hex_digits start ∧
                     query_toBlock q = if decide (h - 1 = 0) then "latest"
                                       else "0x" +:+ hex_digits (h - 1)) ∧
        (fromBlockNumberOverride event (h - 1) = None -> fetches actions = []) ∧
        (∃ s, subscriptions actions = [s] ∧
              last actions = Some (OpenSubscription s) ∧
              s = subscribe newInterface (ev_contract event) (ev_abi event) tp
                    (h - 1) (ev_callback event) (ev_parser event) ∧
              filter_topics (sub_filter s) = Some tp ∧
              filter_fromBlock (sub_filter s)
              = if decide (h - 1 = 0) then None else Some (h - 1))
  end.
Proof.
  split.
  - unfold fromBlockNumberOverride.
    by destruct (ev_fromBlock event), (ev_backFillBlockCount event).
  - destruct (getEventTopics newInterface event) as [tp|e] eqn:Ht;
      [|by apply trackEvent_throws].
    destruct (trackEvent_actions trackedEvents h event tp Ht)
      as (actions & Ha & Hf & Hn & (s & Hs & Hl & Hsub & Htp & _)).
    exists actions. split; [exact Ha|]. split; [|split; [exact Hn|]].
    + intros start Hstart Hne.
      destruct (Hf start Hstart Hne) as (f & Hf1 & Hf2 & Hf3 & Hf4 & Hf5 & Hf6).
      exists f. repeat (split; [assumption|]).
      intros q [Hq1 Hq2]%logParams_Ok. rewrite Hq1, Hq2, Hf2, Hf3.
      unfold encoded_bound. destruct (Z.eqb_spec start 0); [done|].
      split; [done|]. case_decide as H0; [by rewrite H0|].
      by destruct (Z.eqb_spec (h - 1) 0).
    + exists s. repeat (split; [assumption|]). rewrite Hsub.
      cbn [subscribe sub_filter filter_fromBlock truthy_number].
      case_decide as H0; [by rewrite H0|].
      by destruct (Z.eqb_spec (h - 1) 0).
Qed.

(** A starting block of zero starts no fetch. *)
Lemma trackEvent_zero_start (trackedEvents : list EventDescriptor)
    (h : Z) event (tp : list TopicFilter) :
  getEventTopics newInterface event = Ok tp ->
  fromBlockNumberOverride event (h - 1) = Some 0 ->
  ∃ actions,
    trackEvent newInterface trackedEvents h event
      = Ok (actions, trackedEvents ++ [event], true) ∧
    fetches actions = [].
Proof.
  intros Ht H0.
  destruct (subscribeToEvent_actions event (h - 1) tp Ht)
    as (actions & Ha & Hf & _).
  exists actions. split; [by unfold trackEvent; rewrite Ha|].
  by rewrite Hf, H0.
Qed.

End Tracker.

(** The scenario of the design document: [backFillBlockCount: 10] with the
    head at block 1000 gives a fetch over the blocks 989 to 999, sent as
    [0x3dd] and [0x3e7], and a subscription from block 999. *)
Lemma trackEvent_backfill_and_subscription_witness :
  ∃ actions f s,
    trackEvent Sample.newInterface [] 1000 Sample.transfer_descriptor
      = Ok (actions, [Sample.transfer_descriptor], true) ∧
    fetches actions = [f] ∧
    hist_fromBlock f = 989 ∧ hist_toBlock f = 999 ∧
    subscriptions actions = [s] ∧
    filter_fromBlock (sub_filter s) = Some 999.
Proof.
  destruct (trackEvent_backfill_and_subscription Sample.newInterface []
              1000 Sample.transfer_descriptor) as [_ H].
  change (getEventTopics Sample.newInterface Sample.transfer_descriptor)
    with (Ok (A:=list TopicFilter)
            [TopicIs Sample.transfer_topic; TopicAny; TopicAny; TopicAny]) in H.
  destruct H as (actions & Ha & Hf & _ & (s & Hs & _ & _ & _ & Hb)).
  destruct (Hf 989 eq_refl ltac:(lia)) as (f & Hf1 & Hf2 & Hf3 & _).
  exists actions, f, s. split; [exact Ha|].
  split; [exact Hf1|]. split; [exact Hf2|]. split; [exact Hf3|].
  split; [exact Hs|]. rewrite Hb. reflexivity.
Defined.

Example backfill_query_of_the_scenario :
  ∃ actions f,
    trackEvent Sample.newInterface [] 1000 Sample.transfer_descriptor
      = Ok (actions, [Sample.transfer_descriptor], true) ∧
    fetches actions = [f] ∧
    (fun q => (query_fromBlock q, query_toBlock q))
      <$> head (queries (effects (run_fetch Sample.newInterface [] ∅ f)))
    = Some ("0x3dd", "0x3e7").
Proof. eexists _, _. repeat split. Qed.

(** C2 as stated fails in three places: a descriptor naming an event the
    ABI does not declare opens no subscription, [trackEvent] throws; with
    [fromBlock: 0] the starting block is resolved, as block 0, and no
    historical fetch is started; and with the head at block 1 the
    subscription is opened without a [fromBlock], so not from block 0. *)
Lemma trackEvent_without_subscription_or_fetch :
  trackEvent Sample.newInterface [] 1000 Sample.mint_descriptor
    = Throw (Error "Mint not an abi event, possible events are Transfer, Approval") ∧
  fromBlockNumberOverride Sample.genesis_descriptor 999 = Some 0 ∧
  (fun r => fetches r.1.1)
    <$> (match trackEvent Sample.newInterface [] 1000 Sample.genesis_descriptor with
         | Ok r => Some r
         | Throw _ => None
         end)
    = Some [] ∧
  (fun r => (fun s => filter_fromBlock (sub_filter s)) <$> subscriptions r.1.1)
    <$> (match trackEvent Sample.newInterface [] 1 Sample.genesis_descriptor with
         | Ok r => Some r
         | Throw _ => None
         end)
    = Some [None].
Proof. repeat split. Qed.

(** ** Further examples *)

Lemma parseEventLog_values_declared_witness :
  ∃ r, parseEventLog Sample.transfer_log Sample.erc20 = Some r ∧
       dom (log_values r) = list_to_set ["from"; "to"; "amount"].
Proof.
  apply (parseEventLog_values_declared Sample.transfer_log Sample.erc20
           {| name := "Transfer";
              signature := "Transfer(address,address,uint256)";
              topic := Sample.transfer_topic;
              values := decoded_values
                          [("from", VString "0xDEF"); ("to", VString "0xGHI");
                           ("amount", VBigNumber 1000)] |}
           ["from"; "to"; "amount"] 3).
  - reflexivity.
  - split; [reflexivity|]. vm_compute. reflexivity.
  - intros k Hk.
    repeat (apply elem_of_cons in Hk as [->|Hk]);
      [| | |by apply elem_of_nil in Hk];
      (split; [|discriminate]);
      change (positional_keys 3) with ["0"; "1"; "2"]; intros Hin;
      repeat (apply elem_of_cons in Hin as [Hin|Hin]; [discriminate Hin|]);
      by apply elem_of_nil in Hin.
Defined.

Lemma parseEventLogs_cache_frame_witness :
  (parseEventLogs Sample.newInterface {[ "0xBEEF" := Sample.resizable ]}
     [Sample.transfer_log] Sample.Erc20).1 !! "0xBEEF"
  = ({[ "0xBEEF" := Sample.resizable ]} : gmap string Interface) !! "0xBEEF".
Proof.
  apply (parseEventLogs_cache_frame Sample.newInterface
           {[ "0xBEEF" := Sample.resizable ]} [Sample.transfer_log]
           Sample.Erc20 "0xBEEF").
  intros firstLog [= <-]. discriminate.
Defined.

Lemma trackEvent_zero_start_witness :
  ∃ actions,
    trackEvent Sample.newInterface [] 1000 Sample.genesis_descriptor
      = Ok (actions, [Sample.genesis_descriptor], true) ∧
    fetches actions = [].
Proof.
  apply (trackEvent_zero_start Sample.newInterface [] 1000 Sample.genesis_descriptor
           [TopicIs Sample.transfer_topic; TopicAny; TopicAny; TopicAny]);
    reflexivity.
Defined.

(** * Further properties *)

(** ** The normaliser on any decoder *)

Lemma lower_char_idempotent (c : ascii) :
  Js.lower_char (Js.lower_char c) = Js.lower_char c.
Proof. destruct c as [[] [] [] [] [] [] [] []]; reflexivity. Qed.

Lemma toLowerCase_idempotent (s : string) :
  Js.toLowerCase (Js.toLowerCase s) = Js.toLowerCase s.
Proof.
  induction s as [|c s IH]; [done|].
  cbn [Js.toLowerCase]. by rewrite lower_char_idempotent, IH.
Qed.

Lemma startsWith_0x_toLowerCase (s : string) :
  Js.startsWith s "0x" = true -> Js.startsWith (Js.toLowerCase s) "0x" = true.
Proof.
  destruct s as [|a [|b r]]; cbn [Js.startsWith Js.toLowerCase]; try done.
  - by rewrite andb_false_r.
  - rewrite andb_true_r. intros [Ha Hb]%andb_true_iff.
    apply Ascii.eqb_eq in Ha as <-. apply Ascii.eqb_eq in Hb as <-. done.
Qed.

Lemma lowercase_if_hex_idempotent (s : string) :
  lowercase_if_hex (lowercase_if_hex s) = lowercase_if_hex s.
Proof.
  unfold lowercase_if_hex. destruct (Js.startsWith s "0x") eqn:H.
  - by rewrite (startsWith_0x_toLowerCase _ H), toLowerCase_idempotent.
  - by rewrite H.
Qed.

Lemma argumentRange_no_length (m : gmap string string) :
  m !! "length" = None -> argumentRange m = [].
Proof. intros H. unfold argumentRange. by rewrite H. Qed.

Lemma length_not_in_formatValues (vals : gmap string DecodedValue) :
  formatValues vals !! "length" = None.
Proof.
  rewrite lookup_formatValues. case_decide as H; [|done].
  by destruct H as [_ H].
Qed.

(** When the decoder sets no [length], nothing is taken for a positional
    duplicate: every value the decoder emitted is kept, rendered. *)
Theorem parseEventLog_without_length (log : RawLog) (abiInterface : Interface)
    (p : ParsedLog) :
  parseLog abiInterface log = Parsed p ->
  values p !! "length" = None ->
  ∃ r, parseEventLog log abiInterface = Some r ∧
       log_values r = stringify <$> values p.
Proof.
  intros Hp Hl.
  destruct (parseEventLog_parsed _ _ _ Hp) as (r & Hr & _ & Hv).
  exists r. split; [done|]. rewrite Hv. apply map_eq. intros k.
  rewrite lookup_formatValues, argumentRange_no_length
    by (by rewrite lookup_fmap, Hl).
  case_decide as Hk; [by rewrite lookup_fmap|].
  assert (k = "length") as ->.
  { destruct (decide (k = "length")) as [|Hne]; [done|].
    exfalso. apply Hk. split; [apply not_elem_of_nil|done]. }
  by rewrite lookup_fmap, Hl.
Qed.

Lemma parseEventLog_without_length_witness :
  ∃ r, parseEventLog Sample.transfer_log Overloads.bare = Some r ∧
       log_values r = {[ "0" := "0xab"; "who" := "0xab" ]}.
Proof.
  destruct (parseEventLog_without_length Sample.transfer_log Overloads.bare
              {| name := "Seen"; signature := "Seen(address)"; topic := "0x5ee0";
                 values := {[ "0" := VString "0xAB"; "who" := VString "0xAB" ]} |}
              eq_refl eq_refl) as (r & Hr & Hv).
  exists r. split; [exact Hr|]. rewrite Hv. vm_compute. reflexivity.
Defined.

(** Normalising is idempotent: the values of a record, taken as decoded
    strings and normalised again, come out unchanged, and so does the
    address when lowercased again. *)
Theorem parseEventLog_normal_form (log : RawLog) (abiInterface : Interface)
    (p : ParsedLog) :
  parseLog abiInterface log = Parsed p ->
  ∃ r, parseEventLog log abiInterface = Some r ∧
       formatValues (VString <$> log_values r) = log_values r ∧
       Js.toLowerCase (log_address r) = log_address r.
Proof.
  intros Hp.
  destruct (parseEventLog_parsed _ _ _ Hp) as (r & Hr & Ha & Hv).
  exists r. split; [done|]. split; [|by rewrite Ha, toLowerCase_idempotent].
  rewrite Hv. apply map_eq. intros k.
  rewrite (lookup_formatValues (VString <$> _)).
  rewrite argumentRange_no_length
    by (by rewrite !lookup_fmap, length_not_in_formatValues).
  rewrite lookup_fmap.
  case_decide as Hk.
  - rewrite lookup_formatValues. case_decide; [|done].
    destruct (values p !! k) as [v|]; [|done].
    cbn [fmap option_fmap option_map]. f_equal.
    rewrite (stringify_lowercase_if_hex (VString _)). cbn [toString].
    rewrite stringify_lowercase_if_hex. apply lowercase_if_hex_idempotent.
  - assert (k = "length") as ->.
    { destruct (decide (k = "length")) as [|Hne]; [done|].
      exfalso. apply Hk. split; [apply not_elem_of_nil|done]. }
    by rewrite length_not_in_formatValues.
Qed.

Lemma parseEventLog_normal_form_witness :
  ∃ r, parseEventLog Sample.transfer_log Sample.erc20 = Some r ∧
       formatValues (VString <$> log_values r) = log_values r.
Proof.
  destruct (parseEventLog_normal_form Sample.transfer_log Sample.erc20
              {| name := "Transfer";
                 signature := "Transfer(address,address,uint256)";
                 topic := Sample.transfer_topic;
                 values := decoded_values
                             [("from", VString "0xDEF"); ("to", VString "0xGHI");
                              ("amount", VBigNumber 1000)] |} eq_refl)
    as (r & Hr & Hv & _).
  exists r. split; [exact Hr|exact Hv].
Defined.

(** ** Batches, again *)

Lemma parseEventLog_position (log : RawLog) (abiInterface : Interface) (r : EventLog) :
  parseEventLog log abiInterface = Some r -> record_position r = log_position log.
Proof.
  unfold parseEventLog. destruct (parseLog abiInterface log); [done..|].
  by intros [= <-].
Qed.

Lemma omap_parseEventLog_positions (abiInterface : Interface) (logs : list RawLog) :
  record_position <$> omap (fun log => parseEventLog log abiInterface) logs
  `sublist_of` log_position <$> logs.
Proof.
  induction logs as [|log logs IH]; [done|].
  change (omap ?f (log :: logs)) with
    (match f log with Some y => y :: omap f logs | None => omap f logs end).
  destruct (parseEventLog log abiInterface) as [r|] eqn:Hr.
  - cbn [fmap list_fmap]. rewrite (parseEventLog_position _ _ _ Hr).
    by apply sublist_skip.
  - cbn [fmap list_fmap]. by apply sublist_cons.
Qed.

Section BatchesAgain.

Context {Abi : Type} (newInterface : Abi -> Interface).
Implicit Types (abiInterfaces : gmap string Interface) (logs : list RawLog).

(** The records of a batch come in the order of its logs, each from a log
    of its own: nothing is reordered or repeated. *)
Theorem parseEventLogs_keeps_order abiInterfaces logs (abi : Abi) :
  record_position <$> (parseEventLogs newInterface abiInterfaces logs abi).2
  `sublist_of` log_position <$> logs.
Proof. rewrite parseEventLogs_records. apply omap_parseEventLog_positions. Qed.

(** The cache only grows: a batch keeps every decoder it finds, replaces
    none, and adds at most one; an empty batch adds none. *)
Theorem parseEventLogs_cache_grows abiInterfaces logs (abi : Abi) :
  abiInterfaces ⊆ (parseEventLogs newInterface abiInterfaces logs abi).1 ∧
  (size (parseEventLogs newInterface abiInterfaces logs abi).1
   <= S (size abiInterfaces))%nat ∧
  (∀ addr, addr ∈ dom (parseEventLogs newInterface abiInterfaces logs abi).1 ->
           addr ∈ dom abiInterfaces ∨ ∃ firstLog, head logs = Some firstLog ∧
                                                  addr = address firstLog).
Proof.
  rewrite parseEventLogs_cache. destruct logs as [|firstLog logs].
  - split; [done|]. split; [lia|]. intros addr H. by left.
  - destruct (abiInterfaces !! address firstLog) as [cached|] eqn:Hc.
    + split; [done|]. split; [lia|]. intros addr H. by left.
    + split; [by apply insert_subseteq|].
      split; [by rewrite map_size_insert_None|].
      intros addr. rewrite dom_insert, elem_of_union, elem_of_singleton.
      intros [->|H]; [right; by eexists|by left].
Qed.

(** Cutting a batch in two gives the same records and the same cache,
    provided the second part starts with a log of the same address as the
    first part: the second call then finds the decoder the first one used,
    whatever ABI comes with it. *)
Theorem parseEventLogs_split abiInterfaces (firstLog firstLog' : RawLog)
    logs logs' (abi abi' : Abi) :
  address firstLog' = address firstLog ->
  (parseEventLogs newInterface abiInterfaces
     ((firstLog :: logs) ++ firstLog' :: logs') abi).2
  = (parseEventLogs newInterface abiInterfaces (firstLog :: logs) abi).2
    ++ (parseEventLogs newInterface
          (parseEventLogs newInterface abiInterfaces (firstLog :: logs) abi).1
          (firstLog' :: logs') abi').2 ∧
  (parseEventLogs newInterface abiInterfaces
     ((firstLog :: logs) ++ firstLog' :: logs') abi).1
  = (parseEventLogs newInterface
       (parseEventLogs newInterface abiInterfaces (firstLog :: logs) abi).1
       (firstLog' :: logs') abi').1.
Proof.
  intros Ha. rewrite !parseEventLogs_records, !parseEventLogs_cache.
  change ((firstLog :: logs) ++ firstLog' :: logs')
    with (firstLog :: (logs ++ firstLog' :: logs')).
  unfold batch_decoder. rewrite Ha.
  change (firstLog :: logs ++ firstLog' :: logs')
    with ((firstLog :: logs) ++ firstLog' :: logs').
  rewrite omap_app.
  destruct (abiInterfaces !! address firstLog) as [cached|] eqn:Hc.
  - by rewrite Hc.
  - by rewrite lookup_insert_eq.
Qed.

End BatchesAgain.

Lemma parseEventLogs_split_witness :
  (parseEventLogs Sample.newInterface ∅
     ([Sample.transfer_log; Sample.foreign_log] ++ [Sample.transfer_log])
     Sample.Erc20).2
  = (parseEventLogs Sample.newInterface ∅
       [Sample.transfer_log; Sample.foreign_log] Sample.Erc20).2
    ++ (parseEventLogs Sample.newInterface
          (parseEventLogs Sample.newInterface ∅
             [Sample.transfer_log; Sample.foreign_log] Sample.Erc20).1
          [Sample.transfer_log] Sample.Resizable).2.
Proof.
  destruct (parseEventLogs_split Sample.newInterface ∅
              Sample.transfer_log Sample.transfer_log [Sample.foreign_log] []
              Sample.Erc20 Sample.Resizable eq_refl) as [H _].
  exact H.
Defined.

(** ** Fetches that send nothing, and fetches that bring nothing *)

Lemma block_tag_refused (n : Z) :
  n < 0 ∨ 9007199254740991 <= n -> ∃ e, block_tag (Some n) = Throw e.
Proof.
  intros H. unfold block_tag.
  destruct (Z.eqb_spec n 0) as [->|_]; [lia|]. cbn [negb].
  unfold Ethers.hexlify.
  destruct (Z.ltb_spec n 0); [by eexists|].
  destruct (Z.leb_spec 9007199254740991 n); [by eexists|lia].
Qed.

Lemma logParams_refused (contractAddress : option string) (tp : TopicArg)
    (fromBlock toBlock : option Z) (n : Z) :
  fromBlock = Some n ∨ toBlock = Some n ->
  n < 0 ∨ 9007199254740991 <= n ->
  ∃ e, logParams contractAddress tp fromBlock toBlock = Throw e.
Proof.
  intros Hb Hn. destruct (block_tag_refused n Hn) as [e He].
  unfold logParams. destruct Hb as [-> | ->].
  - rewrite He. by eexists.
  - destruct (block_tag fromBlock); cbn [bind]; [rewrite He|]; by eexists.
Qed.

Section FetcherAgain.

Context {Abi Custom : Type} (newInterface : Abi -> Interface).
Implicit Types (abiInterfaces : gmap string Interface) (replies : list Reply)
  (parser : option (@Delivery Custom -> @Delivery Custom)).

Lemma fetchLogs_throw replies abiInterfaces contractAddress (abi : Abi) tp
    fromBlock toBlock parser provider (e : JsError) :
  logParams contractAddress tp fromBlock toBlock = Throw e ->
  fetchLogs newInterface replies abiInterfaces contractAddress abi tp
    fromBlock toBlock parser provider
  = {| outcome := Rejected e; cache_after := abiInterfaces; effects := [] |}.
Proof. intros H. destruct replies; cbn [fetchLogs]; by rewrite H. Qed.

(** A bound that is negative, or [2 ^ 53 - 1] or more, makes the call reject
    at once, whatever the node would answer: no query is sent, nothing is
    retried, and the cache is not touched. *)
Theorem fetchLogs_refuses_unsafe_bound replies abiInterfaces contractAddress
    (abi : Abi) tp fromBlock toBlock parser provider (n : Z) :
  fromBlock = Some n ∨ toBlock = Some n ->
  n < 0 ∨ 9007199254740991 <= n ->
  ∃ e, fetchLogs newInterface replies abiInterfaces contractAddress abi tp
         fromBlock toBlock parser provider
       = {| outcome := Rejected e; cache_after := abiInterfaces; effects := [] |}.
Proof.
  intros Hb Hn.
  destruct (logParams_refused contractAddress tp fromBlock toBlock n Hb Hn) as [e He].
  exists e. by apply fetchLogs_throw.
Qed.

Lemma fetchLogs_failures_keep_cache (errors : list JsError) :
  ∀ abiInterfaces contractAddress (abi : Abi) tp fromBlock toBlock parser provider,
    cache_after (fetchLogs newInterface (ReplyError <$> errors) abiInterfaces
                   contractAddress abi tp fromBlock toBlock parser provider)
    = abiInterfaces.
Proof.
  induction errors as [|e errors IH];
    intros abiInterfaces contractAddress abi tp fromBlock toBlock parser provider;
    cbn [fmap list_fmap fetchLogs];
    destruct (logParams contractAddress tp fromBlock toBlock); try done.
  cbn [cache_after]. apply IH.
Qed.

(** The cache changes on success only: while the node fails it stays as
    it was, and a successful answer without logs, after any number of
    failures, resolves to the empty sequence (or to what the parser makes
    of it) and leaves the cache as it was too. *)
Theorem fetchLogs_empty_answer (errors : list JsError) replies abiInterfaces
    contractAddress (abi : Abi) tp fromBlock toBlock parser provider q :
  logParams contractAddress tp fromBlock toBlock = Ok q ->
  cache_after (fetchLogs newInterface (ReplyError <$> errors) abiInterfaces
                 contractAddress abi tp fromBlock toBlock parser provider)
    = abiInterfaces ∧
  cache_after (fetchLogs newInterface
                 ((ReplyError <$> errors) ++ ReplyLogs [] :: replies) abiInterfaces
                 contractAddress abi tp fromBlock toBlock parser provider)
    = abiInterfaces ∧
  outcome (fetchLogs newInterface
             ((ReplyError <$> errors) ++ ReplyLogs [] :: replies) abiInterfaces
             contractAddress abi tp fromBlock toBlock parser provider)
    = Resolved (match parser with
                | Some parser => parser (Sequence [])
                | None => Sequence []
                end).
Proof.
  intros Hq. split; [apply fetchLogs_failures_keep_cache|].
  destruct (fetchLogs_after_failures newInterface errors replies abiInterfaces
              contractAddress abi tp fromBlock toBlock parser provider q [] Hq)
    as (Ho & Hc & _).
  split; [exact Hc|exact Ho].
Qed.

End FetcherAgain.

Lemma fetchLogs_refuses_unsafe_bound_witness :
  ∃ e, fetchLogs (Custom:=unit) Sample.newInterface
         [ReplyLogs [Sample.transfer_log]] ∅ (Some "0xABC") Sample.Erc20
         (TopicArray [TopicIs Sample.transfer_topic]) (Some (-6)) (Some 4) None None
       = {| outcome := Rejected e; cache_after := ∅; effects := [] |}.
Proof.
  apply (fetchLogs_refuses_unsafe_bound (Custom:=unit) Sample.newInterface
           [ReplyLogs [Sample.transfer_log]] ∅ (Some "0xABC") Sample.Erc20
           (TopicArray [TopicIs Sample.transfer_topic]) (Some (-6)) (Some 4)
           None None (-6)).
  - left. reflexivity.
  - left. lia.
Defined.

Lemma fetchLogs_empty_answer_witness :
  outcome (fetchLogs (Custom:=unit) Sample.newInterface
             [ReplyError (Error "not ready"); ReplyLogs []] ∅ (Some "0xABC")
             Sample.Erc20 (TopicArray [TopicIs Sample.transfer_topic])
             (Some 989) (Some 999) None None)
  = Resolved (Sequence []).
Proof.
  destruct (fetchLogs_empty_answer (Custom:=unit) Sample.newInterface
              [Error "not ready"] [] ∅ (Some "0xABC") Sample.Erc20
              (TopicArray [TopicIs Sample.transfer_topic]) (Some 989) (Some 999)
              None None
              {| query_address := Some "0xABC";
                 query_topics := [TopicIs Sample.transfer_topic];
                 query_fromBlock := "0x3dd"; query_toBlock := "0x3e7" |}
              eq_refl) as (_ & _ & H).
  exact H.
Defined.

(** ** The historical fetch, from the descriptor to the callback *)

Section HistoryDelivery.

Context {Abi Custom : Type} (newInterface : Abi -> Interface).
Implicit Types (abiInterfaces : gmap string Interface) (replies : list Reply)
  (f : @HistoricalFetch Abi Custom) (event : @EventDescriptor Abi Custom).

Lemma run_fetch_query f :
  safe_bound (Some (hist_fromBlock f)) -> safe_bound (Some (hist_toBlock f)) ->
  logParams (hist_contract f) (TopicArray (hist_topics f))
    (Some (hist_fromBlock f)) (Some (hist_toBlock f))
  = Ok {| query_address := address_or_undefined (hist_contract f);
          query_topics := hist_topics f;
          query_fromBlock := encoded_bound (Some (hist_fromBlock f));
          query_toBlock := encoded_bound (Some (hist_toBlock f)) |}.
Proof. intros Hf Ht. by rewrite logParams_encoded. Qed.

(** Once the node answers, after any number of failures, the descriptor's
    callback is called exactly once, with the normalised (and parsed) logs
    of that answer, after the hook for fetched events has been called with
    the same logs when there is one; as long as the node fails nothing is
    called. *)
Theorem history_delivered_once (errors : list JsError) (logs : list RawLog)
    replies abiInterfaces f :
  safe_bound (Some (hist_fromBlock f)) -> safe_bound (Some (hist_toBlock f)) ->
  on_fetched f (outcome (run_fetch newInterface
                           ((ReplyError <$> errors) ++ ReplyLogs logs :: replies)
                           abiInterfaces f))
  = match hist_onFetched f with
    | Some hook =>
        [Callback hook (delivered newInterface abiInterfaces logs (hist_abi f)
                          (hist_parser f))]
    | None => []
    end
    ++ [Callback (hist_callback f)
          (delivered newInterface abiInterfaces logs (hist_abi f) (hist_parser f))] ∧
  on_fetched f (outcome (run_fetch newInterface (ReplyError <$> errors)
                           abiInterfaces f)) = [].
Proof.
  intros Hf Ht. pose proof (run_fetch_query f Hf Ht) as Hq. unfold run_fetch.
  destruct (fetchLogs_after_failures newInterface errors replies abiInterfaces
              (hist_contract f) (hist_abi f) (TopicArray (hist_topics f))
              (Some (hist_fromBlock f)) (Some (hist_toBlock f)) (hist_parser f)
              None _ logs Hq) as (-> & _).
  destruct (fetchLogs_all_failures newInterface errors abiInterfaces
              (hist_contract f) (hist_abi f) (TopicArray (hist_topics f))
              (Some (hist_fromBlock f)) (Some (hist_toBlock f)) (hist_parser f)
              None _ Hq) as (-> & _).
  done.
Qed.

(** The query of a back-fill, from the descriptor: when the starting
    block and the block before the head are positive and below
    [2 ^ 53 - 1], the
    first thing the fetch does is to ask the module's own transport for the
    logs of the descriptor's contract and topics between the hex forms of
    these two blocks. *)
Theorem backfill_query (trackedEvents : list EventDescriptor) (h start : Z)
    event (tp : list TopicFilter) replies abiInterfaces :
  getEventTopics newInterface event = Ok tp ->
  fromBlockNumberOverride event (h - 1) = Some start ->
  0 < start < 9007199254740991 ->
  0 < h - 1 < 9007199254740991 ->
  ∃ actions f,
    trackEvent newInterface trackedEvents h event
      = Ok (actions, trackedEvents ++ [event], true) ∧
    fetches actions = [f] ∧
    head (effects (run_fetch newInterface replies abiInterfaces f))
    = Some (Request Web3GetPastLogs
              {| query_address := address_or_undefined (ev_contract event);
                 query_topics := tp;
                 query_fromBlock := "0x" +:+ hex_digits start;
                 query_toBlock := "0x" +:+ hex_digits (h - 1) |}).
Proof.
  intros Ht Hs Hstart Hh.
  destruct (trackEvent_actions newInterface trackedEvents h event tp Ht)
    as (actions & Ha & Hf & _).
  destruct (Hf start Hs ltac:(lia)) as (f & Hfs & Hfrom & Hto & Htp & Hc & _).
  exists actions, f. split; [exact Ha|]. split; [exact Hfs|].
  unfold run_fetch.
  rewrite (fetchLogs_first_request newInterface replies abiInterfaces _ _ _ _ _ _ _
             _ (run_fetch_query f ltac:(rewrite Hfrom; simpl; lia)
                  ltac:(rewrite Hto; simpl; lia))).
  rewrite Hfrom, Hto, Htp, Hc. unfold encoded_bound.
  destruct (Z.eqb_spec start 0); [lia|].
  destruct (Z.eqb_spec (h - 1) 0); [lia|]. done.
Qed.

(** A back-fill count beyond the head gives no history at all: the fetch
    is started with a negative starting block, rejects before it sends
    anything, and neither the hook for fetched events nor the callback is
    ever called for it. *)
Theorem backfill_beyond_head (trackedEvents : list EventDescriptor) (h count : Z)
    event (tp : list TopicFilter) :
  getEventTopics newInterface event = Ok tp ->
  ev_fromBlock event = None ->
  ev_backFillBlockCount event = Some count ->
  h - 1 < count ->
  ∃ actions f,
    trackEvent newInterface trackedEvents h event
      = Ok (actions, trackedEvents ++ [event], true) ∧
    fetches actions = [f] ∧
    hist_fromBlock f = h - 1 - count ∧
    ∀ replies abiInterfaces,
      effects (run_fetch newInterface replies abiInterfaces f) = [] ∧
      on_fetched f (outcome (run_fetch newInterface replies abiInterfaces f)) = [].
Proof.
  intros Ht Hfb Hc Hlt.
  destruct (trackEvent_actions newInterface trackedEvents h event tp Ht)
    as (actions & Ha & Hf & _).
  assert (fromBlockNumberOverride event (h - 1) = Some (h - 1 - count)) as Hs
    by (unfold fromBlockNumberOverride; by rewrite Hfb, Hc).
  destruct (Hf _ Hs ltac:(lia)) as (f & Hfs & Hfrom & _).
  exists actions, f. split; [exact Ha|]. split; [exact Hfs|]. split; [exact Hfrom|].
  intros replies abiInterfaces. unfold run_fetch.
  destruct (logParams_refused (hist_contract f) (TopicArray (hist_topics f))
              (Some (hist_fromBlock f)) (Some (hist_toBlock f)) (hist_fromBlock f)
              ltac:(by left) ltac:(left; lia)) as [e He].
  by rewrite (fetchLogs_throw newInterface replies abiInterfaces _ _ _ _ _ _ _ e He).
Qed.

End HistoryDelivery.

Lemma history_delivered_once_witness :
  callbacks
    (on_fetched
       {| hist_contract := Some "0xABC"; hist_abi := Sample.Erc20;
          hist_topics := [TopicIs Sample.transfer_topic];
          hist_fromBlock := 989; hist_toBlock := 999;
          hist_parser := @None (@Delivery unit -> @Delivery unit);
          hist_onFetched := Some "onFetched"; hist_callback := "onTransfer" |}
       (outcome
          (run_fetch Sample.newInterface
             [ReplyError (Error "not ready"); ReplyLogs [Sample.foreign_log]] ∅
             {| hist_contract := Some "0xABC"; hist_abi := Sample.Erc20;
                hist_topics := [TopicIs Sample.transfer_topic];
                hist_fromBlock := 989; hist_toBlock := 999;
                hist_parser := None;
                hist_onFetched := Some "onFetched";
                hist_callback := "onTransfer" |})))
  = [("onFetched", Sequence []); ("onTransfer", Sequence [])].
Proof.
  destruct (history_delivered_once (Custom:=unit) Sample.newInterface
              [Error "not ready"] [Sample.foreign_log] [] ∅
              {| hist_contract := Some "0xABC"; hist_abi := Sample.Erc20;
                 hist_topics := [TopicIs Sample.transfer_topic];
                 hist_fromBlock := 989; hist_toBlock := 999;
                 hist_parser := None;
                 hist_onFetched := Some "onFetched";
                 hist_callback := "onTransfer" |})
    as [H _].
  - simpl. lia.
  - simpl. lia.
  - exact (f_equal callbacks H).
Defined.

Lemma backfill_query_witness :
  ∃ actions f,
    trackEvent Sample.newInterface [] 1000 Sample.transfer_descriptor
      = Ok (actions, [Sample.transfer_descriptor], true) ∧
    fetches actions = [f] ∧
    head (effects (run_fetch Sample.newInterface [] ∅ f))
    = Some (Request Web3GetPastLogs
              {| query_address := Some "0xABC";
                 query_topics := [TopicIs Sample.transfer_topic;
                                  TopicAny; TopicAny; TopicAny];
                 query_fromBlock := "0x3dd"; query_toBlock := "0x3e7" |}).
Proof.
  apply (backfill_query Sample.newInterface [] 1000 989 Sample.transfer_descriptor
           [TopicIs Sample.transfer_topic; TopicAny; TopicAny; TopicAny] [] ∅);
    [reflexivity|reflexivity|lia|lia].
Defined.

Lemma backfill_beyond_head_witness :
  ∃ actions f,
    trackEvent Sample.newInterface [] 5 Sample.transfer_descriptor
      = Ok (actions, [Sample.transfer_descriptor], true) ∧
    fetches actions = [f] ∧
    hist_fromBlock f = -6.
Proof.
  destruct (backfill_beyond_head Sample.newInterface [] 5 10
              Sample.transfer_descriptor
              [TopicIs Sample.transfer_topic; TopicAny; TopicAny; TopicAny]
              eq_refl eq_refl eq_refl ltac:(lia))
    as (actions & f & Ha & Hf & Hs & _).
  exists actions, f. split; [exact Ha|]. split; [exact Hf|exact Hs].
Defined.

(** ** The topic filter deriver, again *)



Section DeriverAgain.

Context {Abi Custom : Type} (newInterface : Abi -> Interface).
Implicit Types (event : @EventDescriptor Abi Custom).

(** Values given for names that are not inputs of the event change
    nothing: the deriver reads [params] at the declared inputs only. *)
Theorem getEventTopics_ignores_other_params event (abiEvent : EventDescription)
    (k : string) (v : ParamValue) :
  mappedEvents_lookup (events (newInterface (ev_abi event))) (ev_name event)
    = Some abiEvent ->
  k ∉ event_inputs abiEvent ->
  getEventTopics newInterface
    (with_params event (Some (<[k := v]> (default ∅ (ev_params event)))))
  = getEventTopics newInterface event.
Proof.
  intros Hl Hk.
  rewrite (getEventTopics_known newInterface event abiEvent Hl).
  rewrite (getEventTopics_known newInterface (with_params event _) abiEvent Hl).
  cbn [with_params ev_abi ev_name ev_params default]. f_equal.
  apply map_ext_in. intros inputName Hin%list_elem_of_In.
  unfold filter_value, id. rewrite lookup_insert_ne; [done|].
  intros ->. by apply Hk.
Qed.



End DeriverAgain.

Lemma getEventTopics_ignores_other_params_witness :
  getEventTopics Sample.newInterface
    (with_params Sample.transfer_descriptor (Some {[ "memo" := PString "rent" ]}))
  = getEventTopics Sample.newInterface Sample.transfer_descriptor.
Proof.
  apply (getEventTopics_ignores_other_params Sample.newInterface
           Sample.transfer_descriptor Sample.transfer_event "memo" (PString "rent")).
  - reflexivity.
  - intros H. repeat (apply elem_of_cons in H as [H|H]; [discriminate H|]).
    by apply elem_of_nil in H.
Defined.



(** ** The live subscription, again *)

Section SubscriptionsAgain.

Context {Abi Custom : Type} (newInterface : Abi -> Interface).

(** Whatever the notification, the handler calls the callback exactly
    once: an error is printed and the call is made all the same, and a
    notification without a log is handed on as [null]. *)
Theorem subscribe_calls_back_once (contractAddress : option string)
    (abi : Abi) (tp : list TopicFilter) (fromBlock : Z) (callback : string)
    (parser : option (@Delivery Custom -> @Delivery Custom))
    (error : option JsError) (log : option RawLog) :
  let handler :=
    sub_handler (subscribe newInterface contractAddress abi tp fromBlock
                   callback parser) in
  let parsed := log ≫= (fun log => parseEventLog log (newInterface abi)) in
  callbacks (handler error log)
  = [(callback, match parser with
                | Some parser => parser (Single parsed)
                | None => Sequence [parsed]
                end)] ∧
  handler error log
  = match error with Some e => [ConsoleLogError e] | None => [] end
    ++ handler None log ∧
  callbacks (handler error None) = callbacks (handler None None).
Proof.
  cbn [subscribe sub_handler]. unfold on_log.
  destruct error, parser, log; done.
Qed.

(** A log answered by the node and the same log pushed on the
    subscription reach the callback in different shapes.  Without a parser
    the fetch gives a sequence with the record, or an empty one when the
    log does not decode, where the subscription gives a sequence of one
    element, the record or [null].  A parser is given that sequence by the
    fetch and the bare record by the subscription. *)
Theorem live_and_history_payloads (abiInterfaces : gmap string Interface)
    (contractAddress : option string) (abi : Abi) (tp : list TopicFilter)
    (fromBlock : Z) (callback : string) (log : RawLog) :
  abiInterfaces !! address log = None ->
  let record := parseEventLog log (newInterface abi) in
  delivered newInterface abiInterfaces [log] abi None
    = Sequence (Custom:=Custom) (Some <$> option_list record) ∧
  sub_handler (subscribe newInterface contractAddress abi tp fromBlock callback None)
    None (Some log)
    = [Callback callback (Sequence (Custom:=Custom) [record])] ∧
  (decodes (newInterface abi) log = true ->
     Some <$> option_list record = [record]) ∧
  (decodes (newInterface abi) log = false ->
     Some <$> option_list record = [] ∧ [record] = [None]) ∧
  (∀ parser : @Delivery Custom -> @Delivery Custom,
     delivered newInterface abiInterfaces [log] abi (Some parser)
       = parser (Sequence (Some <$> option_list record)) ∧
     sub_handler (subscribe newInterface contractAddress abi tp fromBlock callback
                    (Some parser)) None (Some log)
       = [Callback callback (parser (Single record))]).
Proof.
  intros Hmiss record.
  assert ((parseEventLogs newInterface abiInterfaces [log] abi).2
          = option_list record) as Hr.
  { rewrite parseEventLogs_records. unfold batch_decoder. rewrite Hmiss.
    cbn [default from_option]. subst record.
    change (omap ?f [log]) with
      (match f log with Some y => [y] | None => [] end).
    by destruct (parseEventLog log (newInterface abi)). }
  split; [by unfold delivered; rewrite Hr|]. split; [done|].
  split; [|split].
  - intros Hd%parseEventLog_decodes. fold record in Hd.
    by destruct Hd as [r ->].
  - intros Hd%parseEventLog_undecodable. fold record in Hd. by rewrite Hd.
  - intros parser. split; [by unfold delivered; rewrite Hr|done].
Qed.

End SubscriptionsAgain.

(** A collectible's transfer: the fetch delivers nothing for it, the
    subscription a [null]. *)
Lemma live_and_history_payloads_witness :
  delivered (Custom:=unit) Sample.newInterface ∅ [Sample.collectible_log]
    Sample.Erc20 None = Sequence [] ∧
  sub_handler (subscribe (Custom:=unit) Sample.newInterface (Some "0xABC")
                 Sample.Erc20 [TopicIs Sample.transfer_topic] 999 "onTransfer" None)
    None (Some Sample.collectible_log)
  = [Callback "onTransfer" (Sequence [None])].
Proof.
  destruct (live_and_history_payloads (Custom:=unit) Sample.newInterface ∅
              (Some "0xABC") Sample.Erc20 [TopicIs Sample.transfer_topic] 999
              "onTransfer" Sample.collectible_log)
    as (Hf & Hs & _ & Hu & _); [reflexivity|].
  destruct Hu as [Hu _]; [reflexivity|].
  rewrite Hf, Hs. split; reflexivity.
Defined.

(** ** The tracker, again *)

Section TrackerAgain.

Context {Abi Custom : Type} (newInterface : Abi -> Interface).
Implicit Types (event : @EventDescriptor Abi Custom).

Lemma getEventTopics_declared event (tp : list TopicFilter) :
  getEventTopics newInterface event = Ok tp ->
  is_Some (mappedEvents_lookup (events (newInterface (ev_abi event)))
             (ev_name event)).
Proof.
  unfold getEventTopics, mappedEvents_get.
  destruct (mappedEvents_lookup _ _) as [d|]; [by eexists|by case_decide].
Qed.

Lemma trackEvent_returns (trackedEvents trackedEvents' : list EventDescriptor)
    (h : Z) event (actions : list Action) (returned : bool) :
  trackEvent newInterface trackedEvents h event
    = Ok (actions, trackedEvents', returned) ->
  trackedEvents' = trackedEvents ++ [event] ∧ returned = true ∧
  ∃ tp, getEventTopics newInterface event = Ok tp.
Proof.
  intros H. destruct (getEventTopics newInterface event) as [tp|e] eqn:Ht.
  - destruct (trackEvent_actions newInterface trackedEvents h event tp Ht)
      as (actions' & Ha & _).
    rewrite Ha in H. injection H as <- <- <-. split; [done|]. split; [done|].
    by exists tp.
  - by rewrite (trackEvent_throws newInterface trackedEvents h event e Ht) in H.
Qed.

(** Whatever was registered on a tracker, and at whatever heads, each
    descriptor on its list names an event its ABI declares and has its
    topics derivable: a registration that throws leaves no descriptor. *)
Theorem tracked_events_have_topics (trackedEvents : list EventDescriptor) :
  tracked newInterface trackedEvents ->
  Forall (fun event =>
            is_Some (mappedEvents_lookup (events (newInterface (ev_abi event)))
                       (ev_name event)) ∧
            ∃ tp, getEventTopics newInterface event = Ok tp) trackedEvents.
Proof.
  induction 1 as [|trackedEvents trackedEvents' h event actions returned _ IH Hstep].
  - constructor.
  - apply trackEvent_returns in Hstep as (-> & _ & tp & Ht).
    apply Forall_app. split; [done|]. constructor; [|constructor].
    split; [by apply (getEventTopics_declared event tp)|by exists tp].
Qed.

(** The hook [onFetchingHistoricalEvents] is called only for a fetch, once
    and before it: with the hook and a fetch the actions are the hook, the
    fetch and the subscription, in this order; without a fetch no hook is
    called. *)
Theorem fetching_hook_with_fetch (trackedEvents : list EventDescriptor)
    (h : Z) event (tp : list TopicFilter) :
  getEventTopics newInterface event = Ok tp ->
  ∃ actions,
    trackEvent newInterface trackedEvents h event
      = Ok (actions, trackedEvents ++ [event], true) ∧
    hooks_called actions
      = match fetches actions with
        | [] => []
        | _ => option_list (ev_onFetchingHistoricalEvents event)
        end ∧
    (∀ hook f, ev_onFetchingHistoricalEvents event = Some hook ->
       fetches actions = [f] ->
       actions = [CallHook hook; StartFetch f;
                  OpenSubscription
                    (subscribe newInterface (ev_contract event) (ev_abi event) tp
                       (h - 1) (ev_callback event) (ev_parser event))]).
Proof.
  intros Ht. unfold trackEvent, subscribeToEvent. rewrite Ht. cbn [bind].
  eexists. split; [reflexivity|].
  destruct (fromBlockNumberOverride event (h - 1)) as [start|];
    cbn [truthy_number]; [destruct (start =? 0)|]; cbn [negb];
    unfold fetchHistoricalLogs;
    destruct (ev_onFetchingHistoricalEvents event) as [hook|];
    (split; [done|]); intros hook' f Hh Hf; try done.
  injection Hh as <-. cbv in Hf. by injection Hf as <-.
Qed.

End TrackerAgain.

Lemma tracked_events_have_topics_witness :
  Forall (fun event =>
            is_Some (mappedEvents_lookup
                       (events (Sample.newInterface (ev_abi event))) (ev_name event)) ∧
            ∃ tp, getEventTopics Sample.newInterface event = Ok tp)
    [Sample.transfer_descriptor; Sample.zero_amount_descriptor].
Proof.
  apply (tracked_events_have_topics Sample.newInterface).
  eapply (tracked_step Sample.newInterface [Sample.transfer_descriptor] _ 1001
            Sample.zero_amount_descriptor).
  - eapply (tracked_step Sample.newInterface [] _ 1000 Sample.transfer_descriptor).
    + apply tracked_new.
    + reflexivity.
  - reflexivity.
Defined.

Lemma fetching_hook_with_fetch_witness :
  ∃ actions,
    trackEvent (Custom:=unit) Sample.newInterface [] 1000
      {| ev_name := "Transfer"; ev_contract := Some "0xABC";
         ev_abi := Sample.Erc20; ev_params := None; ev_callback := "onTransfer";
         ev_parser := None; ev_backFillBlockCount := Some 10;
         ev_fromBlock := None;
         ev_onFetchingHistoricalEvents := Some "onFetching";
         ev_onFetchedHistoricalEvents := None |}
      = Ok (actions,
            [{| ev_name := "Transfer"; ev_contract := Some "0xABC";
                ev_abi := Sample.Erc20; ev_params := None;
                ev_callback := "onTransfer"; ev_parser := None;
                ev_backFillBlockCount := Some 10; ev_fromBlock := None;
                ev_onFetchingHistoricalEvents := Some "onFetching";
                ev_onFetchedHistoricalEvents := None |}], true) ∧
    hooks_called actions = ["onFetching"] ∧
    head actions = Some (CallHook "onFetching").
Proof.
  destruct (fetching_hook_with_fetch (Custom:=unit) Sample.newInterface [] 1000
              {| ev_name := "Transfer"; ev_contract := Some "0xABC";
                 ev_abi := Sample.Erc20; ev_params := None;
                 ev_callback := "onTransfer"; ev_parser := None;
                 ev_backFillBlockCount := Some 10; ev_fromBlock := None;
                 ev_onFetchingHistoricalEvents := Some "onFetching";
                 ev_onFetchedHistoricalEvents := None |}
              [TopicIs Sample.transfer_topic; TopicAny; TopicAny; TopicAny])
    as (actions & Ha & Hh & _); [reflexivity|].
  exists actions. split; [exact Ha|].
  injection Ha as <-. split; reflexivity.
Defined.
